(** * amunmt: the growable device matrix and the two-level batching loop

    A shallow embedding of
    - [src/amun/gpu/mblas/matrix.h]   (class [TMatrix<T>]), and
    - [src/amun/common/decoder_main.cpp] (function [main]),
    together with the properties of the design document that concern them.

    Conventions.  A [size_t] is a [Z] in [0, 2^64); every product the C++
    code computes in [size_t] is written with its wrap-around ([SizeT.mul]).
    Device memory is an explicit store of blocks, threaded through the
    operations by a small state-and-exception monad; the CUDA runtime calls
    are the only primitives acting on it. *)

From stdpp Require Import base numbers option list sorting gmap strings.
From Stdlib Require Import ZArith Lia.

Local Open Scope Z_scope.

(* ===================================================================== *)
(** ** Machine integers *)
(* ===================================================================== *)

Module SizeT.

(** [size_t] on the 64-bit targets CUDA supports. *)
Definition modulus : Z := 2 ^ 64.

Definition wrap (z : Z) : Z := z mod modulus.

(** [a * b] evaluated in [size_t]. *)
Definition mul (a b : Z) : Z := wrap (a * b).

(** [n++] on a [size_t]: the value stored back. *)
Definition succ (a : Z) : Z := wrap (a + 1).

(** The conversion [(int)x] of a [size_t]: the low 32 bits, read as a
    two's complement number. *)
Definition to_int (z : Z) : Z :=
  let r := z mod 2 ^ 32 in
  if r <? 2 ^ 31 then r else r - 2 ^ 32.

Definition in_range (z : Z) : Prop := 0 <= z < modulus.

End SizeT.

(* ===================================================================== *)
(** ** Errors and the state-and-exception monad *)
(* ===================================================================== *)

(** Status codes of the CUDA runtime calls the class makes. *)
Inductive cudaError_t : Set :=
| cudaErrorMemoryAllocation
| cudaErrorInvalidValue
| cudaErrorInvalidDevicePointer.

(** Modelled from the spec: the two kinds of failure of the buffer (the
    macros [HANDLE_ERROR] of [gpu/mblas/handles.h] and
    [amunmt_UTIL_THROW_IF2] of [common/exception.h] are not among the
    sources).  "Allocation or transfer failure raises a device-fault error
    that is always fatal"; "a reshape requesting more elements than current
    capacity raises a logic/capacity error, distinct from a device fault".
    The second carries the message given to the macro. *)
Inductive exn : Set :=
| DeviceFault (e : cudaError_t)
| UtilException (msg : string).

Inductive res (A : Type) : Type :=
| Ok (a : A)
| Raise (e : exn).
Arguments Ok {A} a.
Arguments Raise {A} e.

(** A computation over a state [S]: the state survives an exception, as the
    object does in C++ when a member function throws. *)
Definition M (S A : Type) : Type := S -> res A * S.

#[export] Instance M_ret {S} : MRet (M S) := fun A a s => (Ok a, s).

#[export] Instance M_bind {S} : MBind (M S) := fun A B k m s =>
  match m s with
  | (Ok a, s') => k a s'
  | (Raise e, s') => (Raise e, s')
  end.

Definition throw {S A} (e : exn) : M S A := fun s => (Raise e, s).
Definition gets {S A} (f : S -> A) : M S A := fun s => (Ok (f s), s).
Definition modify {S} (f : S -> S) : M S unit := fun s => (Ok tt, f s).

(* ===================================================================== *)
(** ** Device memory and the CUDA runtime *)
(* ===================================================================== *)

(** The element type of the template: all the class needs of [T] is
    [sizeof(T)]. *)
Class ElemType (T : Type) : Type := {
  sizeof : Z;
  sizeof_pos : 0 < sizeof
}.

(** [TMatrix<int>], the [IMatrix] of the header. *)
#[export] Program Instance int_ElemType : ElemType Z := {| sizeof := 4 |}.
Next Obligation. lia. Qed.

(** A device pointer: [None] is [nullptr], [Some a] the base address of a
    block. *)
Definition ptr : Set := option positive.
Definition nullptr : ptr := None.

(** The CUDA runtime is outside the repository.  What follows is the
    behaviour of the five calls the class and its callers rely on, over a
    device made of disjoint blocks: allocation hands out a block that is
    not live, a transfer or a fill must stay within the blocks it names,
    and a call that fails changes nothing. *)
Module Cuda.
Section Runtime.
Context {T : Type} `{ElemType T}.

(** One element slot of device memory.  [cudaMalloc] returns
    uninitialised memory; [cudaMemset(_, 0, _)] writes zero bytes. *)
Inductive cell : Type :=
| Garbage
| ZeroBytes
| Elem (v : T).

(** An allocation: its size in bytes as requested and its element
    slots. *)
Record block : Type := Block { bytes : Z; cells : list cell }.

(** The device: the live allocations and the bytes still free. *)
Record device : Type := Device {
  mem : gmap positive block;
  avail : Z
}.

Definition cuda (A : Type) : Type := device -> cudaError_t + (A * device).

(** Number of whole elements in [n] bytes. *)
Definition slots (n : Z) : nat := Z.to_nat (n / sizeof).

(** [cudaMalloc(&p, n)].  A request of 0 bytes succeeds and yields
    [nullptr]; otherwise a fresh block of [n] bytes is carved out of the
    free memory, or the call fails. *)
Definition cudaMalloc (n : Z) : cuda ptr := fun d =>
  if n =? 0 then inr (nullptr, d)
  else if avail d <? n then inl cudaErrorMemoryAllocation
  else
    let a := fresh (dom (mem d)) in
    inr (Some a,
         Device (<[a := Block n (replicate (slots n) Garbage)]> (mem d))
                (avail d - n)).

(** [cudaFree(p)]: freeing [nullptr] is a successful no-op. *)
Definition cudaFree (p : ptr) : cuda unit := fun d =>
  match p with
  | None => inr (tt, d)
  | Some a =>
      match mem d !! a with
      | None => inl cudaErrorInvalidDevicePointer
      | Some b => inr (tt, Device (delete a (mem d)) (avail d + bytes b))
      end
  end.

(** [cudaMemset(p, 0, n)]. *)
Definition cudaMemset0 (p : ptr) (n : Z) : cuda unit := fun d =>
  if n =? 0 then inr (tt, d)
  else
    match p with
    | None => inl cudaErrorInvalidValue
    | Some a =>
        match mem d !! a with
        | None => inl cudaErrorInvalidValue
        | Some b =>
            if bytes b <? n then inl cudaErrorInvalidValue
            else
              let k := slots n in
              inr (tt,
                   Device (<[a := Block (bytes b)
                               (replicate k ZeroBytes ++ drop k (cells b))]>
                             (mem d))
                          (avail d))
        end
    end.

(** [cudaMemcpyAsync(dst, src, n, cudaMemcpyDeviceToDevice, stream)].
    Every transfer of the class is issued on the one stream of
    [CudaStreamHandler], which runs them in program order, so the
    transfer is taken at the point of the call. *)
Definition cudaMemcpyAsync (dst src : ptr) (n : Z) : cuda unit := fun d =>
  if n =? 0 then inr (tt, d)
  else
    match dst, src with
    | Some a, Some s =>
        match mem d !! a, mem d !! s with
        | Some bd, Some bs =>
            if (bytes bd <? n) || (bytes bs <? n)
            then inl cudaErrorInvalidValue
            else
              let k := slots n in
              inr (tt,
                   Device (<[a := Block (bytes bd)
                               (take k (cells bs) ++ drop k (cells bd))]>
                             (mem d))
                          (avail d))
        | _, _ => inl cudaErrorInvalidValue
        end
    | _, _ => inl cudaErrorInvalidValue
    end.

(** A kernel storing [v] into element [i] of the block at [p] (what the
    callers do through [data()]). *)
Definition store (p : ptr) (i : nat) (v : T) : cuda unit := fun d =>
  match p with
  | None => inl cudaErrorInvalidValue
  | Some a =>
      match mem d !! a with
      | None => inl cudaErrorInvalidValue
      | Some b =>
          if decide (i < length (cells b))%nat
          then inr (tt, Device (<[a := Block (bytes b)
                                      (<[i := Elem v]> (cells b))]> (mem d))
                               (avail d))
          else inl cudaErrorInvalidValue
      end
  end.

(** The element slots behind a pointer ([None] when it is not the base
    of a live block). *)
Definition contents (d : device) (p : ptr) : option (list cell) :=
  a ← p; cells <$> (mem d !! a).

(** Modelled from the spec: [HANDLE_ERROR(call)] ([gpu/mblas/handles.h] is
    not among the sources).  "Allocation or transfer failure raises a
    device-fault error": any status of the call but success is raised as a
    device fault, and nothing after the call is run. *)
Definition HANDLE_ERROR {A} (call : cuda A) : M device A := fun d =>
  match call d with
  | inl e => (Raise (DeviceFault e), d)
  | inr (a, d') => (Ok a, d')
  end.

End Runtime.
Arguments cell : clear implicits.
Arguments block : clear implicits.
Arguments device : clear implicits.
Arguments cuda : clear implicits.
End Cuda.

(* ===================================================================== *)
(** ** [TMatrix<T>]  (gpu/mblas/matrix.h) *)
(* ===================================================================== *)

Module mblas.

(** The data members, in declaration order. *)
Record TMatrix : Set := MkTMatrix {
  rows_ : Z;
  cols_ : Z;
  beam_ : Z;
  batches_ : Z;
  arrSize_ : Z;
  data_ : ptr
}.

Definition set_rows_ (v : Z) (m : TMatrix) : TMatrix :=
  MkTMatrix v (cols_ m) (beam_ m) (batches_ m) (arrSize_ m) (data_ m).
Definition set_cols_ (v : Z) (m : TMatrix) : TMatrix :=
  MkTMatrix (rows_ m) v (beam_ m) (batches_ m) (arrSize_ m) (data_ m).
Definition set_beam_ (v : Z) (m : TMatrix) : TMatrix :=
  MkTMatrix (rows_ m) (cols_ m) v (batches_ m) (arrSize_ m) (data_ m).
Definition set_batches_ (v : Z) (m : TMatrix) : TMatrix :=
  MkTMatrix (rows_ m) (cols_ m) (beam_ m) v (arrSize_ m) (data_ m).
Definition set_arrSize_ (v : Z) (m : TMatrix) : TMatrix :=
  MkTMatrix (rows_ m) (cols_ m) (beam_ m) (batches_ m) v (data_ m).
Definition set_data_ (v : ptr) (m : TMatrix) : TMatrix :=
  MkTMatrix (rows_ m) (cols_ m) (beam_ m) (batches_ m) (arrSize_ m) v.

(** [size()]: [cols_ * rows_ * beam_ * batches_], left to right in
    [size_t]. *)
Definition size (m : TMatrix) : Z :=
  SizeT.mul (SizeT.mul (SizeT.mul (cols_ m) (rows_ m)) (beam_ m)) (batches_ m).

(** [dim(i)]; [None] is the [abort()] of the default case. *)
Definition dim (m : TMatrix) (i : Z) : option Z :=
  if i =? 0 then Some (rows_ m)
  else if i =? 1 then Some (cols_ m)
  else if i =? 2 then Some (beam_ m)
  else if i =? 3 then Some (batches_ m)
  else None.

(** [operator bool()]: [(int)size() != 0]. *)
Definition operator_bool (m : TMatrix) : bool :=
  negb (SizeT.to_int (size m) =? 0).

Definition data (m : TMatrix) : ptr := data_ m.

(** [TMatrix()]. *)
Definition TMatrix_default : TMatrix := MkTMatrix 0 0 0 0 0 nullptr.

(** [swap(other)]: member-wise [std::swap]; the pair is ([*this], [other])
    afterwards. *)
Definition swap (this other : TMatrix) : TMatrix * TMatrix :=
  (MkTMatrix (rows_ other) (cols_ other) (beam_ other) (batches_ other)
             (arrSize_ other) (data_ other),
   MkTMatrix (rows_ this) (cols_ this) (beam_ this) (batches_ this)
             (arrSize_ this) (data_ this)).

(** [TMatrix(TMatrix&& m)]: delegate to [TMatrix()], then [swap(m)].  The
    pair is (the new object, [m] afterwards). *)
Definition TMatrix_move (m : TMatrix) : TMatrix * TMatrix :=
  swap TMatrix_default m.

(** [Reshape2D()]. *)
Definition Reshape2D (m : TMatrix) : TMatrix :=
  let m1 :=
    set_rows_ (SizeT.mul (SizeT.mul (rows_ m) (beam_ m)) (batches_ m)) m in
  let m2 := set_beam_ 1 m1 in
  set_batches_ 1 m2.

Section Template.
Context {T : Type} `{ElemType T}.
Import Cuda.

(** A member function runs on the device and on [*this]. *)
Record world : Type := World { dev : device T; this : TMatrix }.

Definition on_device {A} (c : M (device T) A) : M world A := fun w =>
  let (r, d') := c (dev w) in (r, World d' (this w)).

Definition assign (f : TMatrix -> TMatrix) : M world unit :=
  modify (fun w => World (dev w) (f (this w))).

Definition member {A} (f : TMatrix -> A) : M world A :=
  gets (fun w => f (this w)).

(** [TMatrix(rows, cols, beam, batches, zero = false)].  The members are
    initialised in declaration order, so [size()] in the initialiser of
    [arrSize_] reads the four shape members just set. *)
Definition TMatrix_sized (rows cols beam batches : Z) (zero : bool)
  : M (device T) TMatrix :=
  let m := MkTMatrix rows cols 1 1 0 nullptr in
  let m := set_arrSize_ (size m) m in
  p ← HANDLE_ERROR (cudaMalloc (SizeT.mul (arrSize_ m) sizeof));
  let m := set_data_ p m in
  (if zero
   then HANDLE_ERROR (cudaMemset0 (data_ m) (SizeT.mul (arrSize_ m) sizeof))
   else mret tt);;
  mret m.

(** [TMatrix(const TMatrix& m)]. *)
Definition TMatrix_copy (m : TMatrix) : M (device T) TMatrix :=
  let c := MkTMatrix (rows_ m) (cols_ m) (beam_ m) (batches_ m)
                     (arrSize_ m) nullptr in
  p ← HANDLE_ERROR (cudaMalloc (SizeT.mul (arrSize_ c) sizeof));
  let c := set_data_ p c in
  HANDLE_ERROR (cudaMemcpyAsync (data_ c) (data_ m)
                                (SizeT.mul (arrSize_ c) sizeof));;
  mret c.

(** [Clear()]. *)
Definition Clear : M world unit :=
  p ← member data_;
  on_device (HANDLE_ERROR (cudaFree p));;
  assign (set_data_ nullptr);;
  assign (set_rows_ 0);;
  assign (set_cols_ 0);;
  assign (set_beam_ 0);;
  assign (set_batches_ 0);;
  assign (set_arrSize_ 0).

(** [~TMatrix()]. *)
Definition destructor : M world unit := Clear.

(** [Resize(rows, cols, beam = 1, batches = 1)]. *)
Definition Resize (rows cols beam batches : Z) : M world unit :=
  let newSize :=
    SizeT.mul (SizeT.mul (SizeT.mul cols rows) beam) batches in
  p ← member data_;
  (if p is Some _ then
     arr ← member arrSize_;
     if arr <? newSize then
       newData ← on_device
                   (HANDLE_ERROR (cudaMalloc (SizeT.mul newSize sizeof)));
       sz ← member size;
       on_device (HANDLE_ERROR
                    (cudaMemcpyAsync newData p (SizeT.mul sz sizeof)));;
       on_device (HANDLE_ERROR (cudaFree p));;
       assign (set_data_ newData);;
       assign (set_arrSize_ newSize)
     else if (rows =? 0) || (cols =? 0) then Clear
     else mret tt
   else
     q ← on_device (HANDLE_ERROR (cudaMalloc (SizeT.mul newSize sizeof)));
     assign (set_data_ q);;
     assign (set_arrSize_ newSize));;
  assign (set_rows_ rows);;
  assign (set_cols_ cols);;
  assign (set_beam_ beam);;
  assign (set_batches_ batches).

(** [Reshape(rows, cols, beam, batches)]. *)
Definition Reshape (rows cols beam batches : Z) : M world unit :=
  let newSize :=
    SizeT.mul (SizeT.mul (SizeT.mul cols rows) beam) batches in
  arr ← member arrSize_;
  (if arr <? newSize
   then throw (UtilException "Must reshape to same or smaller size")
   else mret tt);;
  assign (set_rows_ rows);;
  assign (set_cols_ cols);;
  assign (set_beam_ beam);;
  assign (set_batches_ batches).

End Template.
Arguments world : clear implicits.

End mblas.

(* ===================================================================== *)
(** ** Vocabulary of the buffer properties *)
(* ===================================================================== *)

Module Buffer.
Import mblas Cuda.

(** Capacity is not below the logical element count. *)
Definition I1 (m : TMatrix) : Prop := size m <= arrSize_ m.

(** All four shape members are 0. *)
Definition shape_all_zero (m : TMatrix) : Prop :=
  rows_ m = 0 /\ cols_ m = 0 /\ beam_ m = 0 /\ batches_ m = 0.

Definition same_shape (a b : TMatrix) : Prop :=
  rows_ a = rows_ b /\ cols_ a = cols_ b /\
  beam_ a = beam_ b /\ batches_ a = batches_ b.

Section Template.
Context {T : Type} `{ElemType T}.

(** The element slots a pointer gives access to; none through
    [nullptr]. *)
Definition region (d : device T) (p : ptr) : list (cell T) :=
  default [] (contents d p).

(** The first [size()] element slots of a matrix. *)
Definition logical_content (d : device T) (m : TMatrix) : list (cell T) :=
  take (Z.to_nat (size m)) (region d (data_ m)).

(** The matrix owns what its members say: no memory when the byte size of
    its capacity is 0, and otherwise a live block of exactly that many
    bytes. *)
Definition owns (d : device T) (m : TMatrix) : Prop :=
  match data_ m with
  | None => SizeT.mul (arrSize_ m) sizeof = 0
  | Some a =>
      exists b, mem d !! a = Some b /\
                bytes b = SizeT.mul (arrSize_ m) sizeof /\
                bytes b <> 0 /\
                length (cells b) = slots (bytes b)
  end.

(** The calls of a client that only resizes, reshapes and clears. *)
Inductive call : Set :=
| CallResize (rows cols beam batches : Z)
| CallReshape (rows cols beam batches : Z)
| CallClear.

Definition exec (c : call) : M (world T) unit :=
  match c with
  | CallResize rows cols beam batches => Resize rows cols beam batches
  | CallReshape rows cols beam batches => Reshape rows cols beam batches
  | CallClear => Clear
  end.

(** A sequence of calls; it stops at the first exception. *)
Fixpoint exec_all (cs : list call) : M (world T) unit :=
  match cs with
  | [] => mret tt
  | c :: cs' => exec c;; exec_all cs'
  end.

(** The matrices a program can hold: built by a constructor and changed
    only through the member functions, on whatever device state. *)
Inductive constructible : TMatrix -> Prop :=
| by_default :
    constructible TMatrix_default
| by_sized rows cols beam batches zero (d d' : device T) m :
    TMatrix_sized rows cols beam batches zero d = (Ok m, d') ->
    constructible m
| by_copy src (d d' : device T) m :
    constructible src ->
    TMatrix_copy src d = (Ok m, d') ->
    constructible m
| by_move_to src :
    constructible src -> constructible (TMatrix_move src).1
| by_move_from src :
    constructible src -> constructible (TMatrix_move src).2
| by_Resize rows cols beam batches (w w' : world T) :
    constructible (this w) ->
    Resize rows cols beam batches w = (Ok tt, w') ->
    constructible (this w')
| by_Reshape rows cols beam batches (w w' : world T) :
    constructible (this w) ->
    Reshape rows cols beam batches w = (Ok tt, w') ->
    constructible (this w')
| by_Reshape2D m :
    constructible m -> constructible (Reshape2D m)
| by_Clear (w w' : world T) :
    constructible (this w) ->
    Clear w = (Ok tt, w') ->
    constructible (this w')
| by_swap_this a b :
    constructible a -> constructible b -> constructible (swap a b).1
| by_swap_other a b :
    constructible a -> constructible b -> constructible (swap a b).2.

End Template.
Arguments call : clear implicits.

(** A small device to run the operations on: empty, with 1 KiB of memory,
    holding [int] matrices; and an empty matrix on it. *)
Definition dev0 : device Z := Device ∅ 1024.
Definition world0 : world Z := World dev0 TMatrix_default.

(** A matrix of capacity 4 narrowed to one logical element. *)
Definition narrowed : world Z :=
  (exec_all [CallResize 2 2 1 1; CallReshape 1 1 1 1] world0).2.

(** *** Whose memory is whose *)

Section Accounting.
Context {T : Type} `{ElemType T}.

(** The blocks of the device that are not the one behind [p]. *)
Definition foreign (d : device T) (p : ptr) : gmap positive (block T) :=
  match p with
  | None => mem d
  | Some a => delete a (mem d)
  end.

(** The bytes of the block behind [p]. *)
Definition held (d : device T) (p : ptr) : Z :=
  match p with
  | None => 0
  | Some a => from_option bytes 0 (mem d !! a)
  end.

(** Two (device, pointer) pairs with the same foreign blocks and the same
    total of free and held bytes. *)
Definition balanced (d : device T) (p : ptr) (d' : device T) (p' : ptr)
  : Prop :=
  foreign d' p' = foreign d p /\ avail d' + held d' p' = avail d + held d p.
End Accounting.

(** A kernel of the caller writing one element of the matrix (nothing
    happens when the store is refused). *)
Definition poke (w : world Z) (i : nat) (v : Z) : world Z :=
  match store (data_ (this w)) i v (dev w) with
  | inr (_, d') => World d' (this w)
  | inl _ => w
  end.

(** The matrix of [world0] resized to 2 x 2, with 7 and 8 written to its
    first two elements. *)
Definition filled : world Z := poke (poke (Resize 2 2 1 1 world0).2 0 7) 1 8.

End Buffer.

(* ===================================================================== *)
(** ** Sentences *)
(* ===================================================================== *)

Module amunmt.

(** Modelled from the spec: class [Sentence] ([common/sentence.h] is not
    among the sources).  "Immutable identity (monotonically increasing
    input index, 0-based, assigned in arrival order) + a token sequence
    derived from the raw input line + its length (token count)."  The
    tokens are the white-space separated words of the line. *)
Record Sentence : Set := MkSentence {
  lineNum_ : Z;
  line_ : string;
  words_ : list string
}.

(** Modelled from the spec: the constructor [Sentence(god, lineNum, line)]
    ([common/sentence.h] is not among the sources).  It keeps the index it
    is given and derives the token sequence from the raw line. *)
Definition new_Sentence (lineNum : Z) (line : string) : Sentence :=
  MkSentence lineNum line (String.words line).

(** Modelled from the spec: the index of a sentence, "used to restore
    original output order". *)
Definition GetLineNum (s : Sentence) : Z := lineNum_ s.

(** Modelled from the spec: the length of a sentence, its "token
    count". *)
Definition GetLength (s : Sentence) : Z := Z.of_nat (length (words_ s)).

(** Modelled from the spec: class [Sentences] ([common/sentences.h] is not
    among the sources).  "An ordered sequence of Sentence"; [push_back]
    appends at the end; [SortByLength] "stably reorder[s] all members by
    token length" (ascending, as in the worked scenario of the spec);
    [NextMiniBatch(n)] "remove[s] and return[s] up to [n] elements from the
    front of the ordered sequence as a new SentenceBatch; the source batch
    shrinks accordingly". *)
Definition Sentences : Set := list Sentence.

Module Sentences.

(** Modelled from the spec: [size()], the number of members. *)
Definition size (b : Sentences) : Z := Z.of_nat (length b).

(** Modelled from the spec: [push_back], "append: add one Sentence at the
    end". *)
Definition push_back (b : Sentences) (s : Sentence) : Sentences := b ++ [s].

(** Modelled from the spec: one step of the stable sort of [SortByLength]:
    [s] goes in front of the first member that is not shorter, so behind
    all shorter ones and before the members of its own length that came
    after it. *)
Fixpoint insert_by_length (s : Sentence) (b : Sentences) : Sentences :=
  match b with
  | [] => [s]
  | s' :: b' =>
      if GetLength s <=? GetLength s' then s :: s' :: b'
      else s' :: insert_by_length s b'
  end.

(** Modelled from the spec: [SortByLength()], "stably reorder all members
    by token length", ascending: "tie-break: original relative order
    preserved". *)
Definition SortByLength (b : Sentences) : Sentences :=
  foldr insert_by_length [] b.

(** Modelled from the spec: [NextMiniBatch(batchsize)], "remove and return
    up to [n] elements from the front of the ordered sequence as a new
    SentenceBatch; the source batch shrinks accordingly".  The pair is
    (the mini-batch returned, the batch afterwards). *)
Definition NextMiniBatch (batchsize : Z) (b : Sentences)
  : Sentences * Sentences :=
  (take (Z.to_nat batchsize) b, drop (Z.to_nat batchsize) b).

(** The order [SortByLength] sorts into. *)
Definition by_length (a b : Sentence) : Prop := GetLength a <= GetLength b.

End Sentences.

(* ===================================================================== *)
(** ** [main]  (common/decoder_main.cpp) *)
(* ===================================================================== *)

(** What [main] acts on: the line counter, the accumulator, and the task
    queue of the thread pool, one entry per [enqueue] in submission order.
    A task is identified with the mini-batch its closure captured. *)
Record state : Set := State {
  lineNum : Z;
  maxiBatch : Sentences;
  pool : list Sentences
}.

(** Modelled from the spec: [god.GetThreadPool().enqueue(...)]
    ([common/god.h] and [common/threadpool.h] are not among the sources).
    "[enqueue(task)] accepts a zero-argument unit of work"; "workers pull
    tasks strictly in FIFO submission order": the task goes to the back of
    the queue. *)
Definition enqueue (q : list Sentences) (miniBatch : Sentences)
  : list Sentences := q ++ [miniBatch].

(** A loop is run with a bound on its iterations; when the bound is hit the
    state reached so far is reported. *)
Inductive outcome : Set :=
| Finished (st : state)
| OutOfFuel (st : state).

(** [while (maxiBatch->size()) { miniBatch = maxiBatch->NextMiniBatch(miniSize);
    enqueue(...); }] *)
Fixpoint slice (fuel : nat) (miniSize : Z) (st : state) : outcome :=
  match fuel with
  | O => OutOfFuel st
  | S fuel' =>
      if Sentences.size (maxiBatch st) =? 0 then Finished st
      else
        let (miniBatch, rest) :=
          Sentences.NextMiniBatch miniSize (maxiBatch st) in
        slice fuel' miniSize
              (State (lineNum st) rest (enqueue (pool st) miniBatch))
  end.

(** The body of the reading loop up to the test on [maxiSize]:
    [maxiBatch->push_back(SentencePtr(new Sentence(god, lineNum++, line)))]. *)
Definition submit (line : string) (st : state) : state :=
  State (SizeT.succ (lineNum st))
        (Sentences.push_back (maxiBatch st) (new_Sentence (lineNum st) line))
        (pool st).

(** [maxiBatch->SortByLength()] followed by the slicing loop. *)
Definition sort_and_slice (fuel : nat) (miniSize : Z) (st : state) : outcome :=
  slice fuel miniSize
        (State (lineNum st) (Sentences.SortByLength (maxiBatch st)) (pool st)).

(** [while (std::getline(god.GetInputStream(), line)) { ... }]: the input
    stream is the list of its lines. *)
Fixpoint read_loop (fuel : nat) (miniSize maxiSize : Z)
    (input : list string) (st : state) : outcome :=
  match input with
  | [] => Finished st
  | line :: input' =>
      let st := submit line st in
      if maxiSize <=? Sentences.size (maxiBatch st) then
        match sort_and_slice fuel miniSize st with
        | Finished st =>
            read_loop fuel miniSize maxiSize input'
                      (State (lineNum st) [] (pool st))
        | OutOfFuel st => OutOfFuel st
        end
      else read_loop fuel miniSize maxiSize input' st
  end.

(** The "last batch" block after the reading loop. *)
Definition last_batch (fuel : nat) (miniSize : Z) (st : state) : outcome :=
  if Sentences.size (maxiBatch st) =? 0 then Finished st
  else sort_and_slice fuel miniSize st.

(** [main], from the two [god.Get<size_t>] to [return 0]: [miniSize] and
    [maxiSize] are the values of "mini-batch" and "maxi-batch". *)
Definition main (fuel : nat) (miniSize maxiSize : Z) (input : list string)
  : outcome :=
  let st := State 0 [] [] in
  match read_loop fuel miniSize maxiSize input st with
  | Finished st => last_batch fuel miniSize st
  | OutOfFuel st => OutOfFuel st
  end.

(** *** Start-up: [God god; god.Init(argc, argv);] *)

(** Modelled from the spec: the settings [God::Init] finds on the command
    line and in the configuration file, by option name ([common/god.h] and
    [common/config.h] are not among the sources).  An option that is
    missing has no entry; the recognised batch-size options are
    "[mini-batch] (positive integer, mini-batch size)" and "[maxi-batch]
    (positive integer, lookahead accumulation size before sort/flush)". *)
Definition options : Type := gmap string Z.

(** Modelled from the spec: the "single global coordinator object bundling
    configuration, thread pool, and I/O streams", as far as [main] reads
    it: the configuration. *)
Record God : Type := MkGod { config_ : options }.

(** Modelled from the spec: a batch-size setting is well-formed when it is
    there and positive. *)
Definition positive_size (opts : options) (key : string) : bool :=
  match opts !! key with
  | Some v => 0 <? v
  | None => false
  end.

(** Modelled from the spec: [God::Init(argc, argv)].  "Configuration error
    (e.g., zero or missing batch-size settings): detected at startup,
    fatal, process exits before any batching begins"; "scheduler-level
    errors (malformed configuration) are checked once at startup".  [None]
    is that exit. *)
Definition God_Init (opts : options) : option God :=
  if positive_size opts "mini-batch" && positive_size opts "maxi-batch"
  then Some (MkGod opts)
  else None.

(** Modelled from the spec: [God::Get<size_t>(key)], the value of a
    setting of the configuration [Init] accepted. *)
Definition God_Get (god : God) (key : string) : Z :=
  default 0 (config_ god !! key).

(** How a run of the program ends: in the fatal exit of [god.Init] (exit
    code not 0), or by coming to the loops of [main]. *)
Inductive exit : Type :=
| ConfigurationError
| Returned (o : outcome).

(** [main] from its first line: [god.Init(argc, argv)], then the two
    [god.Get<size_t>] and the loops. *)
Definition main_from_Init (fuel : nat) (opts : options) (input : list string)
  : exit :=
  match God_Init opts with
  | None => ConfigurationError
  | Some god =>
      Returned (main fuel (God_Get god "mini-batch") (God_Get god "maxi-batch")
                     input)
  end.

(** The scheduler state a run came to, if it came to the loops at all. *)
Definition reached (e : exit) : option state :=
  match e with
  | ConfigurationError => None
  | Returned (Finished st) | Returned (OutOfFuel st) => Some st
  end.

(** The number of sentences a run put into the accumulator (the line
    counter), and the tasks it handed to the pool. *)
Definition submitted (e : exit) : Z :=
  from_option lineNum 0 (reached e).

Definition enqueued (e : exit) : list Sentences :=
  from_option pool [] (reached e).

(** The sentences of an input in arrival order, the one at (0-based)
    position [i] carrying the value [lineNum] had when it was read. *)
Definition input_sentences (input : list string) : list Sentence :=
  imap (fun i line => new_Sentence (SizeT.wrap (Z.of_nat i)) line) input.

(** The same, for the rest of an input read when the counter stands at
    [n]. *)
Fixpoint sentences_from (n : Z) (input : list string) : list Sentence :=
  match input with
  | [] => []
  | line :: input' =>
      new_Sentence n line :: sentences_from (SizeT.succ n) input'
  end.

(** The number of mini-batches of at most [miniSize] sentences that [k]
    sentences are sliced into. *)
Definition tasks_for (miniSize k : Z) : Z := (k + miniSize - 1) / miniSize.

(** What [main] asks of a mini-batch: it is not empty, holds at most
    [miniSize] sentences, and these are in ascending order of length. *)
Definition well_formed_batch (miniSize : Z) (c : Sentences) : Prop :=
  c <> [] /\ Z.of_nat (length c) <= miniSize /\ Sorted Sentences.by_length c.

End amunmt.

(* ===================================================================== *)
(** ** Facts about [size_t] arithmetic *)
(* ===================================================================== *)

Module SizeTFacts.
Import SizeT.

Lemma modulus_pos : 0 < modulus.
Proof. reflexivity. Qed.

Lemma wrap_range z : 0 <= wrap z < modulus.
Proof. apply Z.mod_pos_bound, modulus_pos. Qed.

Lemma wrap_small z : 0 <= z < modulus -> wrap z = z.
Proof. apply Z.mod_small. Qed.

Lemma mul_range a b : 0 <= mul a b < modulus.
Proof. apply wrap_range. Qed.

Lemma mul_nonneg a b : 0 <= mul a b.
Proof. apply mul_range. Qed.

Lemma mul_0_l a : mul 0 a = 0.
Proof. unfold mul. rewrite Z.mul_0_l. reflexivity. Qed.

Lemma mul_wrap_l a b : mul (wrap a) b = mul a b.
Proof. unfold mul, wrap. apply Z.mul_mod_idemp_l. discriminate. Qed.

Lemma mul_wrap_r a b : mul a (wrap b) = mul a b.
Proof. unfold mul, wrap. apply Z.mul_mod_idemp_r. discriminate. Qed.

(** A chain of [size_t] products is the mathematical product reduced once. *)
Lemma mul3 a b c d : mul (mul (mul a b) c) d = wrap (a * b * c * d).
Proof.
  unfold mul at 2 3. rewrite mul_wrap_l.
  unfold mul at 1. fold (mul (wrap (a * b) * c) d).
  replace (wrap (a * b) * c) with (c * wrap (a * b)) by lia.
  unfold mul, wrap.
  rewrite <- Z.mul_mod_idemp_l by discriminate.
  rewrite Z.mul_mod_idemp_r by discriminate.
  rewrite Z.mul_mod_idemp_l by discriminate.
  f_equal. lia.
Qed.

Lemma succ_wrap n : succ (wrap n) = wrap (n + 1).
Proof. unfold succ, wrap. apply Z.add_mod_idemp_l. discriminate. Qed.

(** [(int)x] is 0 exactly when the low 32 bits of [x] are. *)
Lemma to_int_0 z : to_int z = 0 <-> z mod 2 ^ 32 = 0.
Proof.
  unfold to_int.
  pose proof (Z.mod_pos_bound z (2 ^ 32) eq_refl) as B.
  destruct (Z.ltb_spec (z mod 2 ^ 32) (2 ^ 31)); lia.
Qed.

End SizeTFacts.

(* ===================================================================== *)
(** ** The device buffer *)
(* ===================================================================== *)

Module BufferFacts.
Import mblas Cuda Buffer SizeTFacts.

(** Run a monadic member function: expose the binds and split on every
    test and every runtime call. *)
Ltac unfold_M :=
  unfold mbind, M_bind, mret, M_ret, member, gets, assign, modify,
         on_device, throw, HANDLE_ERROR,
         set_rows_, set_cols_, set_beam_, set_batches_, set_arrSize_,
         set_data_ in *.

Ltac run_M :=
  unfold_M; simpl in *;
  repeat (case_match; simplify_eq; simpl in * ).

Lemma size_nonneg m : 0 <= size m.
Proof. apply mul_nonneg. Qed.

Lemma size_eq m :
  size m = SizeT.wrap (cols_ m * rows_ m * beam_ m * batches_ m).
Proof. apply mul3. Qed.

Lemma newSize_zero rows cols beam batches :
  (rows =? 0) || (cols =? 0) = true ->
  SizeT.mul (SizeT.mul (SizeT.mul cols rows) beam) batches = 0.
Proof.
  intros Hz. rewrite mul3.
  apply orb_true_iff in Hz as [->%Z.eqb_eq | ->%Z.eqb_eq];
    [rewrite Z.mul_0_r | rewrite Z.mul_0_l]; reflexivity.
Qed.

Lemma I1_default : I1 TMatrix_default.
Proof. unfold I1. vm_compute. discriminate. Qed.

Lemma I1_swap a b : I1 a -> I1 b -> I1 (swap a b).1 /\ I1 (swap a b).2.
Proof. destruct a, b. unfold I1, size. simpl. tauto. Qed.

Lemma size_Reshape2D m : size (Reshape2D m) = size m.
Proof.
  rewrite !size_eq. unfold Reshape2D. simpl.
  unfold SizeT.mul at 2. rewrite mul_wrap_l.
  replace (cols_ m * SizeT.mul (rows_ m * beam_ m) (batches_ m) * 1 * 1)
    with (cols_ m * SizeT.mul (rows_ m * beam_ m) (batches_ m)) by lia.
  change (SizeT.mul (cols_ m) (SizeT.wrap (rows_ m * beam_ m * batches_ m))
          = SizeT.wrap (cols_ m * rows_ m * beam_ m * batches_ m)).
  rewrite mul_wrap_r. unfold SizeT.mul. f_equal. lia.
Qed.

Lemma I1_Reshape2D m : I1 m -> I1 (Reshape2D m).
Proof. unfold I1. rewrite size_Reshape2D. destruct m; simpl. tauto. Qed.

Section Template.
Context {T : Type} `{ElemType T}.

Lemma I1_sized rows cols beam batches zero (d d' : device T) m :
  TMatrix_sized rows cols beam batches zero d = (Ok m, d') -> I1 m.
Proof.
  unfold TMatrix_sized. intros E. run_M; apply Z.le_refl.
Qed.

Lemma I1_copy src (d d' : device T) m :
  I1 src -> TMatrix_copy src d = (Ok m, d') -> I1 m.
Proof.
  unfold TMatrix_copy. intros Hsrc E. run_M. exact Hsrc.
Qed.

Lemma I1_Clear (w w' : world T) : Clear w = (Ok tt, w') -> I1 (this w').
Proof.
  unfold Clear. intros E. run_M. apply I1_default.
Qed.

(** [Resize] establishes the invariant whatever the state before. *)
Lemma I1_Resize rows cols beam batches (w w' : world T) :
  Resize rows cols beam batches w = (Ok tt, w') -> I1 (this w').
Proof.
  unfold Resize, Clear. intros E. destruct w as [d m].
  run_M; unfold I1, size; simpl; try lia.
  rewrite newSize_zero by assumption. lia.
Qed.

Lemma I1_Reshape rows cols beam batches (w w' : world T) :
  Reshape rows cols beam batches w = (Ok tt, w') -> I1 (this w').
Proof.
  unfold Reshape. intros E. destruct w as [d m].
  run_M; unfold I1, size; simpl; lia.
Qed.

Lemma I1_constructible (m : TMatrix) : constructible (T:=T) m -> I1 m.
Proof.
  induction 1.
  - apply I1_default.
  - eapply I1_sized; eassumption.
  - eapply I1_copy; eassumption.
  - apply I1_swap; [apply I1_default | assumption].
  - apply I1_swap; [apply I1_default | assumption].
  - eapply I1_Resize; eassumption.
  - eapply I1_Reshape; eassumption.
  - apply I1_Reshape2D; assumption.
  - eapply I1_Clear; eassumption.
  - apply I1_swap; assumption.
  - apply I1_swap; assumption.
Qed.

(** C2, as the code has it.  Invariant I1: every matrix obtained from the constructors
    (default, sized, copy, move) through any successful [Resize],
    [Reshape], [Reshape2D], [Clear] and [swap] has a capacity [arrSize_]
    that is at least its logical element count [size()], the product
    [rows_ * cols_ * beam_ * batches_] as the class computes it (in
    [size_t]); this is the product of the four numbers whenever that fits
    a [size_t]. *)
Theorem capacity_covers_size (m : TMatrix) :
  constructible (T:=T) m ->
  size m <= arrSize_ m /\
  (0 <= rows_ m * cols_ m * beam_ m * batches_ m < SizeT.modulus ->
   rows_ m * cols_ m * beam_ m * batches_ m <= arrSize_ m).
Proof.
  intros Hm. apply I1_constructible in Hm. unfold I1 in Hm.
  split; [exact Hm|]. intros Hfit.
  rewrite size_eq in Hm.
  replace (cols_ m * rows_ m * beam_ m * batches_ m)
    with (rows_ m * cols_ m * beam_ m * batches_ m) in Hm by lia.
  rewrite wrap_small in Hm by exact Hfit. exact Hm.
Qed.

(** *** The runtime calls *)

Lemma cudaMalloc_inv n (d d' : device T) p :
  cudaMalloc n d = inr (p, d') ->
  (n = 0 /\ p = nullptr /\ d' = d) \/
  (n <> 0 /\ exists a,
      p = Some a /\ mem d !! a = None /\
      d' = Device (<[a := Block n (replicate (slots n) Garbage)]> (mem d))
                  (avail d - n)).
Proof.
  unfold cudaMalloc. intros E.
  destruct (Z.eqb_spec n 0) as [->|Hn]; simplify_eq.
  - left. done.
  - right. split; [done|]. case_match; simplify_eq.
    eexists. split; [done|]. split; [|done].
    apply not_elem_of_dom, is_fresh.
Qed.

Lemma slots_mono a b : a <= b -> (slots a <= slots b)%nat.
Proof.
  intros Hab. unfold slots. pose proof sizeof_pos.
  pose proof (Z.div_le_mono a b sizeof). lia.
Qed.

Lemma slots_0 : slots 0 = 0%nat.
Proof.
  unfold slots. rewrite Z.div_0_l; [done|]. pose proof sizeof_pos. lia.
Qed.

Lemma slots_exact k : 0 <= k -> slots (k * sizeof) = Z.to_nat k.
Proof.
  intros Hk. unfold slots. rewrite Z.div_mul; [done|].
  pose proof sizeof_pos. lia.
Qed.

Lemma region_null (d : device T) : region d nullptr = [].
Proof. reflexivity. Qed.

Lemma region_Some (d : device T) a b :
  mem d !! a = Some b -> region d (Some a) = cells b.
Proof. unfold region, contents. simpl. intros ->. reflexivity. Qed.

Lemma drop_replicate_all {A} k (x : A) : drop k (replicate k x) = [].
Proof. rewrite drop_replicate, Nat.sub_diag. reflexivity. Qed.

(** *** Reshape *)

(** The element count both [Resize] and [Reshape] compute. *)
Lemma newSize_wrap rows cols beam batches :
  SizeT.mul (SizeT.mul (SizeT.mul cols rows) beam) batches
  = SizeT.wrap (rows * cols * beam * batches).
Proof. rewrite mul3. f_equal. lia. Qed.

Lemma Reshape_exceeds rows cols beam batches (w : world T) :
  arrSize_ (this w) < SizeT.wrap (rows * cols * beam * batches) ->
  Reshape rows cols beam batches w
  = (Raise (UtilException "Must reshape to same or smaller size"), w).
Proof.
  intros Hlt. destruct w as [d m]. unfold Reshape.
  rewrite newSize_wrap. unfold_M; simpl in *.
  destruct (Z.ltb_spec (arrSize_ m)
              (SizeT.wrap (rows * cols * beam * batches))); [reflexivity | lia].
Qed.

Lemma Reshape_fits rows cols beam batches (w : world T) :
  SizeT.wrap (rows * cols * beam * batches) <= arrSize_ (this w) ->
  Reshape rows cols beam batches w
  = (Ok tt,
     World (dev w)
           (MkTMatrix rows cols beam batches
                      (arrSize_ (this w)) (data_ (this w)))).
Proof.
  intros Hle. destruct w as [d m]. unfold Reshape.
  rewrite newSize_wrap. unfold_M; simpl in *.
  destruct (Z.ltb_spec (arrSize_ m)
              (SizeT.wrap (rows * cols * beam * batches))); [lia | reflexivity].
Qed.

(** C4, as the code has it.  [Reshape(rows, cols, beam, batches)] whose
    element count (the
    product taken in [size_t]) exceeds the capacity throws the
    [util::Exception] "Must reshape to same or smaller size", which is
    not a device fault, and leaves the matrix and the device exactly as
    they were; otherwise it succeeds, sets the four shape members to the
    arguments and touches neither the capacity, the pointer nor the
    device (no allocation, no copy).  The element count is the plain
    product [rows * cols * beam * batches] whenever that fits a
    [size_t]. *)
Theorem Reshape_checks_capacity rows cols beam batches (w : world T) :
  let newSize := SizeT.wrap (rows * cols * beam * batches) in
  (arrSize_ (this w) < newSize ->
     Reshape rows cols beam batches w
     = (Raise (UtilException "Must reshape to same or smaller size"), w))
  /\
  (forall e w',
     Reshape rows cols beam batches w <> (Raise (DeviceFault e), w'))
  /\
  (newSize <= arrSize_ (this w) ->
     Reshape rows cols beam batches w
     = (Ok tt,
        World (dev w)
              (MkTMatrix rows cols beam batches
                         (arrSize_ (this w)) (data_ (this w)))))
  /\
  (0 <= rows * cols * beam * batches < SizeT.modulus ->
     newSize = rows * cols * beam * batches).
Proof.
  intros newSize. split; [apply Reshape_exceeds|].
  split; [|split; [apply Reshape_fits | apply wrap_small]].
  intros e w'.
  destruct (Z.lt_ge_cases (arrSize_ (this w)) newSize) as [Hlt | Hge].
  - rewrite Reshape_exceeds by exact Hlt. discriminate.
  - rewrite Reshape_fits by exact Hge. discriminate.
Qed.

(** *** Construction *)

(** What a successful sized construction leaves behind. *)
Lemma TMatrix_sized_inv rows cols beam batches zero (d d' : device T) m :
  TMatrix_sized rows cols beam batches zero d = (Ok m, d') ->
  let arr := SizeT.wrap (rows * cols) in
  let n := SizeT.mul arr sizeof in
  exists p,
    m = MkTMatrix rows cols 1 1 arr p /\
    owns d' m /\
    region d' p = replicate (slots n) (if zero then ZeroBytes else Garbage) /\
    (p = nullptr \/ exists a, p = Some a /\ mem d !! a = None).
Proof.
  intros E arr n.
  assert (Harr : size (MkTMatrix rows cols 1 1 0 nullptr) = arr).
  { rewrite size_eq. simpl. unfold arr. f_equal. lia. }
  unfold TMatrix_sized in E. rewrite Harr in E.
  unfold_M; simpl in E. fold n in E.
  destruct (cudaMalloc n d) as [e | [p d1]] eqn:Ea; [discriminate|].
  apply cudaMalloc_inv in Ea as [(Hn & -> & ->) | (Hn & a & -> & Hfresh & ->)].
  - (* nothing to allocate *)
    exists nullptr.
    assert (E' : m = MkTMatrix rows cols 1 1 arr nullptr /\ d' = d).
    { destruct zero; simpl in E; unfold cudaMemset0 in E; fold n in E;
        rewrite ?Hn in E; simpl in E; simplify_eq; done. }
    destruct E' as [-> ->].
    split; [done|]. split; [exact Hn|]. split; [|by left].
    rewrite region_null. fold n. rewrite Hn, slots_0. reflexivity.
  - exists (Some a). destruct zero; simpl in E.
    + unfold cudaMemset0 in E. simpl in E.
      rewrite (proj2 (Z.eqb_neq n 0) Hn) in E.
      rewrite lookup_insert_eq in E. simpl in E.
      rewrite Z.ltb_irrefl in E. simplify_eq.
      split; [done|]. split; [|split; [|right; eauto]].
      * eexists. simpl. rewrite lookup_insert_eq. split; [done|]. simpl.
        split; [done|]. split; [done|].
        rewrite drop_replicate_all, app_nil_r. apply length_replicate.
      * erewrite region_Some by (simpl; apply lookup_insert_eq). simpl.
        rewrite drop_replicate_all, app_nil_r. reflexivity.
    + simplify_eq.
      split; [done|]. split; [|split; [|right; eauto]].
      * eexists. simpl. rewrite lookup_insert_eq. split; [done|]. simpl.
        split; [done|]. split; [done|]. apply length_replicate.
      * erewrite region_Some by (simpl; apply lookup_insert_eq). reflexivity.
Qed.

(** C10, as the code has it.  The sized constructor ignores its [beam]
    and [batches]
    arguments: whatever they are it does what it does for [beam = 1] and
    [batches = 1]; the matrix it builds has [beam_ = 1], [batches_ = 1]
    and a capacity of [rows * cols] elements (as a [size_t]), and the
    region it allocates is the one of exactly that many elements:
    [arrSize_ * sizeof(T)] bytes, that is [rows * cols] element slots
    when that byte count fits a [size_t]. *)
Theorem sized_constructor_ignores_beam_batches
    rows cols beam batches zero (d : device T) :
  (forall beam' batches',
      TMatrix_sized rows cols beam batches zero d
      = TMatrix_sized rows cols beam' batches' zero d)
  /\
  (forall m d',
      TMatrix_sized rows cols beam batches zero d = (Ok m, d') ->
      rows_ m = rows /\ cols_ m = cols /\
      beam_ m = 1 /\ batches_ m = 1 /\
      arrSize_ m = SizeT.wrap (rows * cols) /\
      owns d' m /\
      length (region d' (data_ m))
      = slots (SizeT.mul (SizeT.wrap (rows * cols)) sizeof) /\
      (0 <= rows -> 0 <= cols -> rows * cols * sizeof < SizeT.modulus ->
       arrSize_ m = rows * cols /\
       length (region d' (data_ m)) = Z.to_nat (rows * cols))).
Proof.
  split; [reflexivity|].
  intros m d' E.
  apply TMatrix_sized_inv in E as (p & -> & Hown & Hreg & _). simpl.
  assert (Hlen : length (region d' p)
                 = slots (SizeT.mul (SizeT.wrap (rows * cols)) sizeof)).
  { rewrite Hreg. apply length_replicate. }
  repeat (split; [done|]).
  intros Hr Hc Hfit.
  pose proof sizeof_pos as Hs.
  assert (0 <= rows * cols) by lia.
  assert (Hw : SizeT.wrap (rows * cols) = rows * cols).
  { apply wrap_small. split; [done|]. nia. }
  split; [exact Hw|].
  rewrite Hlen, Hw. unfold SizeT.mul. rewrite wrap_small by lia.
  apply slots_exact. done.
Qed.

(** *** Zero filling *)

(** What [Resize] does to a matrix without memory. *)
Lemma Resize_initial rows cols beam batches (w w' : world T) :
  data_ (this w) = nullptr ->
  Resize rows cols beam batches w = (Ok tt, w') ->
  let newSize := SizeT.wrap (rows * cols * beam * batches) in
  exists p,
    this w' = MkTMatrix rows cols beam batches newSize p /\
    region (dev w') p
    = replicate (slots (SizeT.mul newSize sizeof)) Garbage /\
    (p = nullptr \/ exists a, p = Some a /\ mem (dev w) !! a = None).
Proof.
  intros Hnull E newSize.
  destruct w as [d m]. simpl in Hnull.
  unfold Resize in E. rewrite newSize_wrap in E.
  fold newSize in E. clearbody newSize.
  unfold_M; simpl in E. rewrite Hnull in E. simpl in E.
  destruct (cudaMalloc (SizeT.mul newSize sizeof) d) as [e | [p d1]] eqn:Ea;
    [discriminate|].
  simplify_eq. simpl. exists p. split; [done|].
  apply cudaMalloc_inv in Ea as [(Hn & -> & ->) | (Hn & a & -> & Hfresh & ->)].
  - split; [|by left]. rewrite Hn, region_null, slots_0. reflexivity.
  - split; [|right; eauto].
    erewrite region_Some by (simpl; apply lookup_insert_eq). reflexivity.
Qed.

(** C6, as the code has it.  [Resize] takes no zero-fill flag: the
    region it allocates for a matrix that has no memory yet is left
    uninitialised.  The flag ([zero], default [false]) is the last
    parameter of the sized constructor, and when it is set the region
    the constructor allocates ([rows * cols] elements) is zero-filled. *)
Theorem zero_fill_is_the_constructors
    rows cols beam batches (d d' : device T) :
  (forall m,
      TMatrix_sized rows cols beam batches true d = (Ok m, d') ->
      region d' (data_ m)
      = replicate (slots (SizeT.mul (arrSize_ m) sizeof)) ZeroBytes /\
      arrSize_ m = SizeT.wrap (rows * cols))
  /\
  (forall m w',
      data_ m = nullptr ->
      Resize rows cols beam batches (World d m) = (Ok tt, w') ->
      region (dev w') (data_ (this w'))
      = replicate (slots (SizeT.mul (arrSize_ (this w')) sizeof)) Garbage /\
      arrSize_ (this w') = SizeT.wrap (rows * cols * beam * batches)).
Proof.
  split.
  - intros m E.
    apply TMatrix_sized_inv in E as (p & -> & _ & Hreg & _). simpl.
    split; [exact Hreg | reflexivity].
  - intros m w' Hnull E.
    apply Resize_initial in E as (p & -> & Hreg & _); [|exact Hnull].
    simpl. split; [exact Hreg | reflexivity].
Qed.

(** *** Ownership of the memory *)

(** The members that [owns] looks at. *)
Lemma owns_ext (d : device T) m m' :
  data_ m' = data_ m -> arrSize_ m' = arrSize_ m -> owns d m -> owns d m'.
Proof. unfold owns. intros -> ->. done. Qed.

Lemma owns_Clear (w w' : world T) :
  Clear w = (Ok tt, w') -> owns (dev w') (this w').
Proof.
  unfold Clear. intros E. run_M; unfold owns; simpl; apply mul_0_l.
Qed.

Lemma owns_Reshape rows cols beam batches (w w' : world T) :
  owns (dev w) (this w) ->
  Reshape rows cols beam batches w = (Ok tt, w') ->
  owns (dev w') (this w').
Proof.
  unfold Reshape. intros Hown E. destruct w as [d m].
  run_M. eapply owns_ext; [| |exact Hown]; done.
Qed.

Lemma owns_Resize rows cols beam batches (w w' : world T) :
  owns (dev w) (this w) ->
  Resize rows cols beam batches w = (Ok tt, w') ->
  owns (dev w') (this w').
Proof.
  intros Hown E. destruct w as [d m]. simpl in Hown.
  unfold Resize, Clear in E.
  remember (SizeT.mul (SizeT.mul (SizeT.mul cols rows) beam) batches)
    as newSize eqn:HnewSize.
  remember (SizeT.mul newSize sizeof) as n' eqn:Hn'.
  unfold_M; simpl in E.
  destruct (data_ m) as [p|] eqn:Hp; simpl in E.
  - unfold owns in Hown. rewrite Hp in Hown.
    destruct Hown as (b & Hb & Hbytes & Hb0 & Hlen).
    destruct (arrSize_ m <? newSize) eqn:Hgrow.
    + (* growth *)
      simpl in E.
      destruct (cudaMalloc n' d) as [e | [q d1]] eqn:Ea; simpl in E;
        [discriminate|].
      remember (SizeT.mul (size m) sizeof) as nc eqn:Hnc.
      destruct (cudaMemcpyAsync q (Some p) nc d1) as [e | [[] d2]] eqn:Ec;
        simpl in E; [discriminate|].
      destruct (mem d2 !! p) as [b2|] eqn:Hp2; simpl in E; [|discriminate].
      injection E as <-. unfold owns. simpl.
      apply cudaMalloc_inv in Ea
          as [(Hz & -> & ->) | (Hnz & a & -> & Hfresh & ->)].
      * congruence.
      * assert (Hap : a <> p) by congruence.
        assert (Hd2 : exists blk,
                   mem d2 !! a = Some blk /\ bytes blk = n' /\
                   length (cells blk) = slots n').
        { unfold cudaMemcpyAsync in Ec. simpl in Ec.
          destruct (nc =? 0).
          - injection Ec as <-. simpl. rewrite lookup_insert_eq.
            eexists. split; [done|]. simpl. by rewrite length_replicate.
          - rewrite lookup_insert_eq, lookup_insert_ne, Hb in Ec by done.
            simpl in Ec.
            destruct (Z.ltb_spec n' nc) as [|Hle1]; [discriminate|].
            destruct (Z.ltb_spec (bytes b) nc) as [|Hle2]; [discriminate|].
            simpl in Ec. injection Ec as <-. simpl.
            rewrite lookup_insert_eq. eexists. split; [done|]. simpl.
            split; [done|].
            pose proof (slots_mono _ _ Hle1). pose proof (slots_mono _ _ Hle2).
            rewrite length_app, length_take, length_drop, length_replicate.
            lia. }
        destruct Hd2 as (blk & Hblk & Hbb & Hbl).
        rewrite lookup_delete_ne by done.
        exists blk. rewrite Hbb. done.
    + destruct ((rows =? 0) || (cols =? 0)) eqn:Hz; simpl in E.
      * rewrite Hp in E. simpl in E. rewrite Hb in E. simpl in E.
        injection E as <-. unfold owns. simpl. apply mul_0_l.
      * injection E as <-. unfold owns. simpl. rewrite Hp. eauto.
  - destruct (cudaMalloc n' d) as [e | [q d1]] eqn:Ea; simpl in E;
      [discriminate|].
    injection E as <-. unfold owns. simpl.
    apply cudaMalloc_inv in Ea
        as [(Hz & -> & ->) | (Hnz & a & -> & Hfresh & ->)].
    + congruence.
    + simpl. rewrite lookup_insert_eq. eexists. split; [done|]. simpl.
      by rewrite length_replicate.
Qed.

Lemma owns_exec_all cs (w w' : world T) :
  owns (dev w) (this w) -> exec_all cs w = (Ok tt, w') ->
  owns (dev w') (this w').
Proof.
  revert w. induction cs as [|c cs IH]; intros w Hw E; simpl in E.
  - unfold_M. by simplify_eq.
  - unfold mbind, M_bind in E.
    destruct (exec c w) as [[[]|e] w1] eqn:Ec; [|discriminate].
    apply (IH w1); [|exact E].
    destruct c; simpl in Ec.
    + eapply owns_Resize; eassumption.
    + eapply owns_Reshape; eassumption.
    + eapply owns_Clear; eassumption.
Qed.

(** *** Copy construction *)

(** C5, as the code has it.  Copy construction from a source that owns
    its memory yields a matrix with the source's shape and the source's
    CAPACITY [arrSize_] (not its element count [size()]), backed by a
    newly allocated region of [arrSize_ * sizeof(T)] bytes into which the
    whole region of the source was transferred device to device; so the
    logical contents agree, the source is untouched, and a store through
    the copy changes the copy only. *)
Theorem copy_constructor_is_deep src (d d' : device T) c :
  owns d src ->
  TMatrix_copy src d = (Ok c, d') ->
  same_shape c src /\
  arrSize_ c = arrSize_ src /\
  owns d' c /\
  region d' (data_ c) = region d (data_ src) /\
  logical_content d' c = logical_content d src /\
  region d' (data_ src) = region d (data_ src) /\
  (data_ c = nullptr \/
   exists a, data_ c = Some a /\ mem d !! a = None /\
             data_ c <> data_ src) /\
  (forall i v d'',
      store (data_ c) i v d' = inr (tt, d'') ->
      region d'' (data_ c) = <[i := Elem v]> (region d' (data_ c)) /\
      region d'' (data_ src) = region d (data_ src) /\
      logical_content d'' src = logical_content d src).
Proof.
  intros Hown E.
  unfold TMatrix_copy in E. unfold_M; simpl in E.
  remember (SizeT.mul (arrSize_ src) sizeof) as n eqn:Hndef.
  destruct (cudaMalloc n d) as [e | [p d1]] eqn:Ea; [discriminate|].
  apply cudaMalloc_inv in Ea as [(Hn & -> & ->) | (Hn & a & -> & Hfresh & ->)].
  - (* a capacity of 0 bytes: nothing is allocated, nothing is copied *)
    unfold cudaMemcpyAsync in E. rewrite Hn in E. simpl in E.
    simplify_eq.
    assert (Hsrc : data_ src = nullptr).
    { unfold owns in Hown. destruct (data_ src) as [s|]; [|done].
      destruct Hown as (b & _ & Hb & Hb0 & _). congruence. }
    unfold logical_content, size, same_shape. simpl. rewrite Hsrc.
    repeat (split; [done|]).
    split; [by left|]. intros i v d'' Hst. discriminate.
  - (* a fresh block, filled from the source *)
    unfold owns in Hown. unfold cudaMemcpyAsync in E.
    rewrite (proj2 (Z.eqb_neq n 0) Hn) in E.
    destruct (data_ src) as [s|] eqn:Hsrc; [|discriminate].
    destruct Hown as (b & Hb & Hbytes & _ & Hlen). rewrite <- Hndef in Hbytes.
    assert (Hne : a <> s) by congruence.
    simpl in E. rewrite lookup_insert_eq, lookup_insert_ne, Hb in E by done.
    simpl in E. rewrite Hbytes, Z.ltb_irrefl in E. simpl in E.
    rewrite Hbytes in Hlen.
    rewrite drop_replicate_all, app_nil_r, take_ge in E by lia.
    rewrite insert_insert_eq in E. injection E as <- <-.
    assert (Hc : region
                   (Device (<[a := Block n (cells b)]> (mem d)) (avail d - n))
                   (Some a) = cells b).
    { erewrite region_Some by (simpl; apply lookup_insert_eq). done. }
    assert (Hs : region
                   (Device (<[a := Block n (cells b)]> (mem d)) (avail d - n))
                   (Some s) = cells b).
    { erewrite region_Some; [done|]. simpl. by rewrite lookup_insert_ne. }
    assert (Hs0 : region d (Some s) = cells b) by (by apply region_Some).
    unfold logical_content, size, same_shape. simpl.
    rewrite Hsrc, Hc, Hs, Hs0.
    repeat (split; [done|]).
    split.
    { unfold owns. simpl. eexists. rewrite lookup_insert_eq. simpl.
      rewrite <- Hndef. done. }
    repeat (split; [done|]).
    split.
    { right. exists a. split; [done|]. split; [done|]. congruence. }
    intros i v d'' Hst. unfold store in Hst. simpl in Hst.
    rewrite lookup_insert_eq in Hst. simpl in Hst.
    case_decide; [|discriminate]. injection Hst as <-.
    rewrite insert_insert_eq.
    split.
    { erewrite region_Some by (simpl; apply lookup_insert_eq). done. }
    assert (Hs' : region (Device
                    (<[a := Block n (<[i := Elem v]> (cells b))]> (mem d))
                    (avail d - n)) (Some s) = cells b).
    { erewrite region_Some; [done|]. simpl. by rewrite lookup_insert_ne. }
    rewrite Hs'. done.
Qed.

(** *** Sequences of [Resize], [Reshape] and [Clear] *)

Lemma I1_exec c (w w' : world T) : exec c w = (Ok tt, w') -> I1 (this w').
Proof.
  destruct c; simpl.
  - apply I1_Resize.
  - apply I1_Reshape.
  - apply I1_Clear.
Qed.

Lemma I1_exec_all cs (w w' : world T) :
  I1 (this w) -> exec_all cs w = (Ok tt, w') -> I1 (this w').
Proof.
  revert w. induction cs as [|c cs IH]; intros w Hw E; simpl in E.
  - unfold_M. by simplify_eq.
  - unfold mbind, M_bind in E.
    destruct (exec c w) as [[[]|e] w1] eqn:Ec; [|discriminate].
    apply (IH w1); [|exact E]. eapply I1_exec, Ec.
Qed.

(** [Clear] leaves the default-constructed state. *)
Lemma Clear_resets (w w' : world T) :
  Clear w = (Ok tt, w') -> this w' = TMatrix_default.
Proof. unfold Clear. intros E. run_M. reflexivity. Qed.

(** [Resize] with no rows or no columns gives the memory up and takes
    the shape it is asked for. *)
Lemma Resize_zero_dimension rows cols beam batches (w w' : world T) :
  I1 (this w) ->
  rows = 0 \/ cols = 0 ->
  Resize rows cols beam batches w = (Ok tt, w') ->
  this w' = MkTMatrix rows cols beam batches 0 nullptr.
Proof.
  intros Hinv Hz E.
  assert (Hb : (rows =? 0) || (cols =? 0) = true).
  { apply orb_true_iff. rewrite !Z.eqb_eq. exact Hz. }
  pose proof (newSize_zero rows cols beam batches Hb) as Hn.
  destruct w as [d m]. unfold I1 in Hinv. simpl in Hinv.
  pose proof (size_nonneg m) as Hs.
  unfold Resize, Clear in E. rewrite Hn, mul_0_l in E.
  unfold_M; simpl in E.
  destruct (data_ m) as [p|] eqn:Hp; simpl in E.
  - destruct (Z.ltb_spec (arrSize_ m) 0) as [?|_]; [lia|].
    rewrite Hb in E. simpl in E. rewrite Hp in E.
    destruct (cudaFree (Some p) d) as [e | [[] d1]]; [discriminate|].
    simpl in E. by simplify_eq.
  - unfold cudaMalloc in E. simpl in E. by simplify_eq.
Qed.

(** C3, as the code has it.  After any sequence of [Resize], [Reshape]
    and [Clear] calls that completes (started on a matrix satisfying
    I1), a capacity of 0 implies that the logical element count [size()]
    is 0; the four shape members need not all be 0.  In particular a
    [Resize] with [rows == 0] or [cols == 0] empties the buffer
    physically (zero capacity, null pointer) and sets the shape to the
    four values requested, whose element count is 0; [Clear] is what
    leaves the all-zero shape with zero capacity, while [Reshape(0, 0, 0,
    0)] leaves the all-zero shape on the capacity there was. *)
Theorem zero_capacity_means_no_elements cs (w w' : world T) :
  I1 (this w) ->
  exec_all cs w = (Ok tt, w') ->
  (arrSize_ (this w') = 0 -> size (this w') = 0) /\
  (forall rows cols beam batches w'',
      rows = 0 \/ cols = 0 ->
      Resize rows cols beam batches w' = (Ok tt, w'') ->
      this w'' = MkTMatrix rows cols beam batches 0 nullptr /\
      size (this w'') = 0) /\
  (forall w'',
      Clear w' = (Ok tt, w'') ->
      arrSize_ (this w'') = 0 /\ shape_all_zero (this w'')) /\
  Reshape 0 0 0 0 w'
  = (Ok tt, World (dev w')
                  (MkTMatrix 0 0 0 0 (arrSize_ (this w')) (data_ (this w')))).
Proof.
  intros Hw E.
  pose proof (I1_exec_all cs w w' Hw E) as Hinv.
  split; [|split; [|split]]; cycle 3.
  { apply Reshape_fits. unfold I1 in Hinv.
    pose proof (size_nonneg (this w')).
    change (SizeT.wrap (0 * 0 * 0 * 0)) with 0. lia. }
  - unfold I1 in Hinv. pose proof (size_nonneg (this w')). lia.
  - intros rows cols beam batches w'' Hz ER.
    pose proof (Resize_zero_dimension _ _ _ _ _ _ Hinv Hz ER) as Hthis.
    split; [exact Hthis|].
    apply I1_Resize in ER. unfold I1 in ER. rewrite Hthis in ER at 2.
    simpl in ER. pose proof (size_nonneg (this w'')). lia.
  - intros w'' EC. rewrite (Clear_resets _ _ EC). by vm_compute.
Qed.

(** A first [Resize] succeeds when the device has the memory. *)
Lemma Resize_initial_succeeds rows cols beam batches (d : device T) m :
  data_ m = nullptr ->
  SizeT.mul (SizeT.wrap (rows * cols * beam * batches)) sizeof <= avail d ->
  exists w', Resize rows cols beam batches (World d m) = (Ok tt, w').
Proof.
  intros Hnull Hav.
  unfold Resize. rewrite newSize_wrap.
  unfold_M; simpl. rewrite Hnull. simpl. unfold cudaMalloc.
  destruct (Z.eqb_spec
              (SizeT.mul (SizeT.wrap (rows * cols * beam * batches)) sizeof)
              0); [eauto|].
  destruct (Z.ltb_spec (avail d)
              (SizeT.mul (SizeT.wrap (rows * cols * beam * batches)) sizeof));
    [lia | eauto].
Qed.

End Template.

(** *** The conversion to [bool] *)

Lemma operator_bool_spec m :
  operator_bool m = true <-> size m mod 2 ^ 32 <> 0.
Proof.
  unfold operator_bool. rewrite negb_true_iff, Z.eqb_neq, to_int_0. done.
Qed.

(** Below [2^32] elements the conversion is the emptiness test. *)
Lemma operator_bool_small m :
  size m < 2 ^ 32 -> (operator_bool m = true <-> size m <> 0).
Proof.
  intros Hlt. rewrite operator_bool_spec.
  rewrite Z.mod_small; [done|]. pose proof (size_nonneg m). lia.
Qed.

(** C8, at the input where the code departs from it.  A matrix of
    [2^32] rows and one column has [2^32] elements, a count a [size_t]
    holds, yet [operator bool] answers [false]: [(int)size()] keeps the
    low 32 bits only. *)
Theorem operator_bool_truncates_size :
  let m := MkTMatrix (2 ^ 32) 1 1 1 (2 ^ 32) (Some 1%positive) in
  size m = 2 ^ 32 /\ size m <> 0 /\ SizeT.in_range (size m) /\
  operator_bool m = false.
Proof. vm_compute. repeat split; congruence. Qed.

Section Template.
Context {T : Type} `{ElemType T}.

(** That matrix is what [Resize(4294967296, 1)] makes of an empty one on
    a device with the memory for it. *)
Lemma Resize_reaches_truncation (d : device T) :
  SizeT.mul (2 ^ 32) sizeof <= avail d ->
  exists w',
    Resize (2 ^ 32) 1 1 1 (World d TMatrix_default) = (Ok tt, w') /\
    size (this w') = 2 ^ 32 /\
    operator_bool (this w') = false.
Proof.
  intros Hav.
  destruct (Resize_initial_succeeds (2 ^ 32) 1 1 1 d TMatrix_default)
    as [w' E]; [done | exact Hav |].
  exists w'. split; [exact E|].
  apply Resize_initial in E as (p & -> & _); [|done].
  by vm_compute.
Qed.

End Template.

(** *** The properties on a small device *)


Lemma capacity_covers_size_witness :
  let w := (Resize 2 3 1 1 world0).2 in
  constructible (T:=Z) (this w) /\
  size (this w) <= arrSize_ (this w) /\
  0 <= 2 * 3 * 1 * 1 < SizeT.modulus /\
  2 * 3 * 1 * 1 <= arrSize_ (this w).
Proof.
  intros w.
  assert (C : constructible (T:=Z) (this w)).
  { apply (by_Resize 2 3 1 1 world0 w); [apply by_default|].
    vm_compute. reflexivity. }
  assert (Hfit : 0 <= 2 * 3 * 1 * 1 < SizeT.modulus)
    by (vm_compute; split; [discriminate | reflexivity]).
  split; [exact C|].
  split; [exact (proj1 (capacity_covers_size (this w) C))|].
  split; [exact Hfit|].
  exact (proj2 (capacity_covers_size (this w) C) Hfit).
Defined.

(** C2 fails as stated: [Resize(4294967296, 4294967296)] on an empty
    matrix computes the element count 2^32 * 2^32 in [size_t], which is
    0, allocates nothing and succeeds; the shape it leaves has a product
    of 2^64 over a capacity of 0. *)
Lemma Resize_overflow_leaves_capacity_below_product :
  exists w',
    Resize (2 ^ 32) (2 ^ 32) 1 1 world0 = (Ok tt, w') /\
    this w' = MkTMatrix (2 ^ 32) (2 ^ 32) 1 1 0 nullptr /\
    constructible (T:=Z) (this w') /\
    rows_ (this w') * cols_ (this w') * beam_ (this w') * batches_ (this w')
    = 2 ^ 64 /\
    ~ (rows_ (this w') * cols_ (this w') * beam_ (this w') * batches_ (this w')
       <= arrSize_ (this w')).
Proof.
  assert (E : Resize (2 ^ 32) (2 ^ 32) 1 1 world0
              = (Ok tt, World dev0 (MkTMatrix (2 ^ 32) (2 ^ 32) 1 1 0 nullptr)))
    by (vm_compute; reflexivity).
  eexists. split; [exact E|]. split; [reflexivity|].
  split; [apply (by_Resize (2 ^ 32) (2 ^ 32) 1 1 world0 _);
          [apply by_default | exact E]|].
  split; [reflexivity|].
  vm_compute. intros Hle. apply Hle. reflexivity.
Qed.

(** C3 fails as stated: [Resize(2, 2)] then [Resize(0, 5)] on an empty
    matrix ends with capacity 0 and the shape (0, 5, 1, 1). *)
Lemma Resize_zero_rows_keeps_requested_shape :
  exists w',
    exec_all [CallResize 2 2 1 1; CallResize 0 5 1 1] world0 = (Ok tt, w') /\
    this w' = MkTMatrix 0 5 1 1 0 nullptr /\
    ~ (arrSize_ (this w') = 0 <-> shape_all_zero (this w')).
Proof.
  eexists. split; [vm_compute; reflexivity|]. split; [reflexivity|].
  simpl. unfold shape_all_zero. simpl. intros [Hc _].
  destruct (Hc eq_refl) as (_ & Hcols & _). discriminate.
Qed.

Lemma zero_capacity_means_no_elements_witness :
  let w' := (exec_all [CallResize 2 2 1 1; CallReshape 1 2 1 1] world0).2 in
  I1 (this world0) /\
  (arrSize_ (this w') = 0 -> size (this w') = 0) /\
  (forall rows cols beam batches w'',
      rows = 0 \/ cols = 0 ->
      Resize rows cols beam batches w' = (Ok tt, w'') ->
      this w'' = MkTMatrix rows cols beam batches 0 nullptr /\
      size (this w'') = 0) /\
  (forall w'',
      Clear w' = (Ok tt, w'') ->
      arrSize_ (this w'') = 0 /\ shape_all_zero (this w'')) /\
  Reshape 0 0 0 0 w'
  = (Ok tt, World (dev w')
                  (MkTMatrix 0 0 0 0 (arrSize_ (this w')) (data_ (this w')))).
Proof.
  intros w'.
  assert (Hinv : I1 (this world0)) by (vm_compute; discriminate).
  split; [exact Hinv|].
  apply (zero_capacity_means_no_elements
           [CallResize 2 2 1 1; CallReshape 1 2 1 1] world0 w' Hinv).
  vm_compute. reflexivity.
Defined.

Lemma Reshape_checks_capacity_witness :
  let w := (Resize 2 2 1 1 world0).2 in
  arrSize_ (this w) < SizeT.wrap (3 * 3 * 1 * 1) /\
  Reshape 3 3 1 1 w
  = (Raise (UtilException "Must reshape to same or smaller size"), w) /\
  SizeT.wrap (1 * 2 * 2 * 1) <= arrSize_ (this w) /\
  Reshape 1 2 2 1 w
  = (Ok tt, World (dev w) (MkTMatrix 1 2 2 1 (arrSize_ (this w))
                                     (data_ (this w)))) /\
  0 <= 1 * 2 * 2 * 1 < SizeT.modulus /\
  SizeT.wrap (1 * 2 * 2 * 1) = 1 * 2 * 2 * 1.
Proof.
  intros w.
  assert (Hgt : arrSize_ (this w) < SizeT.wrap (3 * 3 * 1 * 1))
    by (vm_compute; reflexivity).
  assert (Hle : SizeT.wrap (1 * 2 * 2 * 1) <= arrSize_ (this w))
    by (vm_compute; discriminate).
  split; [exact Hgt|].
  split; [exact (proj1 (Reshape_checks_capacity 3 3 1 1 w) Hgt)|].
  assert (Hfit : 0 <= 1 * 2 * 2 * 1 < SizeT.modulus)
    by (vm_compute; split; [discriminate | reflexivity]).
  split; [exact Hle|].
  split;
    [exact (proj1 (proj2 (proj2 (Reshape_checks_capacity 1 2 2 1 w))) Hle)|].
  split; [exact Hfit|].
  exact (proj2 (proj2 (proj2 (Reshape_checks_capacity 1 2 2 1 w))) Hfit).
Defined.

(** C4 fails as stated: on a matrix of capacity 4,
    [Reshape(4294967296, 4294967296, 1, 1)] asks for 2^64 elements, more
    than the capacity, and succeeds: the count it compares is the
    [size_t] product, 0. *)
Lemma Reshape_overflow_passes_the_capacity_check :
  let w := (Resize 2 2 1 1 world0).2 in
  arrSize_ (this w) = 4 /\
  arrSize_ (this w) < 2 ^ 32 * 2 ^ 32 * 1 * 1 /\
  Reshape (2 ^ 32) (2 ^ 32) 1 1 w
  = (Ok tt, World (dev w)
                  (MkTMatrix (2 ^ 32) (2 ^ 32) 1 1 4 (data_ (this w)))) /\
  Reshape (2 ^ 32) (2 ^ 32) 1 1 w
  <> (Raise (UtilException "Must reshape to same or smaller size"), w).
Proof.
  intros w. split; [reflexivity|]. split; [reflexivity|].
  split; [vm_compute; reflexivity|].
  vm_compute. discriminate.
Qed.

(** C5 fails as stated: the copy of a matrix of capacity 4 holding one
    logical element has capacity 4, in a block of 16 bytes. *)
Lemma copy_takes_capacity_not_size :
  exists c d',
    exec_all [CallResize 2 2 1 1; CallReshape 1 1 1 1] world0
    = (Ok tt, narrowed) /\
    TMatrix_copy (this narrowed) (dev narrowed) = (Ok c, d') /\
    size (this narrowed) = 1 /\
    arrSize_ c = 4 /\
    arrSize_ c <> size (this narrowed) /\
    length (region d' (data_ c)) = 4%nat.
Proof.
  eexists _, _. split; [vm_compute; reflexivity|].
  split; [vm_compute; reflexivity|].
  vm_compute. repeat split; congruence.
Qed.

Lemma copy_constructor_is_deep_witness :
  let src := this narrowed in
  let d := dev narrowed in
  let c := MkTMatrix 1 1 1 1 4 (Some 2%positive) in
  let d' := (TMatrix_copy src d).2 in
  owns d src /\
  same_shape c src /\
  arrSize_ c = arrSize_ src /\
  owns d' c /\
  region d' (data_ c) = region d (data_ src) /\
  logical_content d' c = logical_content d src /\
  region d' (data_ src) = region d (data_ src) /\
  (data_ c = nullptr \/
   exists a, data_ c = Some a /\ mem d !! a = None /\ data_ c <> data_ src) /\
  (forall i v d'',
      store (data_ c) i v d' = inr (tt, d'') ->
      region d'' (data_ c) = <[i := Elem v]> (region d' (data_ c)) /\
      region d'' (data_ src) = region d (data_ src) /\
      logical_content d'' src = logical_content d src).
Proof.
  intros src d c d'.
  assert (Hown : owns d src).
  { eexists. vm_compute. repeat split; congruence. }
  split; [exact Hown|].
  apply (copy_constructor_is_deep src d d' c Hown).
  vm_compute. reflexivity.
Defined.

(** C6 fails as stated: [Resize] has no flag to request zero filling, and
    the four elements it allocates for an empty matrix are uninitialised. *)
Lemma Resize_leaves_memory_uninitialised :
  exists w',
    arrSize_ (this world0) = 0 /\
    Resize 2 2 1 1 world0 = (Ok tt, w') /\
    region (dev w') (data_ (this w')) = [Garbage; Garbage; Garbage; Garbage] /\
    region (dev w') (data_ (this w')) <> replicate 4 ZeroBytes.
Proof.
  eexists. split; [reflexivity|]. split; [vm_compute; reflexivity|].
  split; [vm_compute; reflexivity|]. vm_compute. discriminate.
Qed.

Lemma zero_fill_is_the_constructors_witness :
  let r := TMatrix_sized 2 3 7 7 true dev0 in
  let m := MkTMatrix 2 3 1 1 6 (Some 1%positive) in
  (region r.2 (data_ m)
   = replicate (slots (SizeT.mul (arrSize_ m) sizeof)) ZeroBytes /\
   arrSize_ m = SizeT.wrap (2 * 3)) /\
  (data_ TMatrix_default = nullptr /\
   let w' := (Resize 2 3 2 2 world0).2 in
   region (dev w') (data_ (this w'))
   = replicate (slots (SizeT.mul (arrSize_ (this w')) sizeof)) Garbage /\
   arrSize_ (this w') = SizeT.wrap (2 * 3 * 2 * 2)).
Proof.
  intros r m. split.
  - apply (proj1 (zero_fill_is_the_constructors 2 3 7 7 dev0 r.2) m).
    vm_compute. reflexivity.
  - split; [reflexivity|]. intros w'.
    apply (proj2 (zero_fill_is_the_constructors 2 3 2 2 dev0 dev0)
                 TMatrix_default w' eq_refl).
    vm_compute. reflexivity.
Defined.

Lemma sized_constructor_ignores_beam_batches_witness :
  let r := TMatrix_sized 2 3 7 7 false dev0 in
  let m := MkTMatrix 2 3 1 1 6 (Some 1%positive) in
  r.1 = Ok m /\
  0 <= 2 /\ 0 <= 3 /\ 2 * 3 * sizeof (T:=Z) < SizeT.modulus /\
  beam_ m = 1 /\ batches_ m = 1 /\
  arrSize_ m = 2 * 3 /\
  length (region r.2 (data_ m)) = Z.to_nat (2 * 3).
Proof.
  intros r m.
  assert (E : TMatrix_sized 2 3 7 7 false dev0 = (Ok m, r.2))
    by (vm_compute; reflexivity).
  assert (H2 : 0 <= 2) by lia.
  assert (H3 : 0 <= 3) by lia.
  assert (Hfit : 2 * 3 * sizeof (T:=Z) < SizeT.modulus)
    by (vm_compute; reflexivity).
  split; [vm_compute; reflexivity|].
  do 3 (split; [assumption|]).
  destruct (proj2 (sized_constructor_ignores_beam_batches 2 3 7 7 false dev0)
                  m r.2 E)
    as (_ & _ & Hbeam & Hbat & _ & _ & _ & Hexact).
  destruct (Hexact H2 H3 Hfit) as [Harr Hlen].
  repeat split; assumption.
Defined.

(** C10 fails as stated: for [rows = 2^62 + 1] and [cols = 1] the byte
    count [arrSize_ * sizeof(int)] wraps to 4, so a capacity of 2^62 + 1
    elements stands over a block of one element; for [rows = cols =
    2^32] the capacity itself wraps to 0 and nothing is allocated. *)
Lemma sized_constructor_wraps_capacity_and_allocation :
  (exists m d',
      TMatrix_sized (2 ^ 62 + 1) 1 9 9 false dev0 = (Ok m, d') /\
      arrSize_ m = 2 ^ 62 + 1 /\
      length (region d' (data_ m)) = 1%nat /\
      Z.of_nat (length (region d' (data_ m))) <> (2 ^ 62 + 1) * 1)
  /\
  (TMatrix_sized (2 ^ 32) (2 ^ 32) 9 9 false dev0
   = (Ok (MkTMatrix (2 ^ 32) (2 ^ 32) 1 1 0 nullptr), dev0) /\
   (0 : Z) <> 2 ^ 32 * 2 ^ 32).
Proof.
  split.
  - eexists _, _. split; [vm_compute; reflexivity|].
    split; [reflexivity|]. split; [reflexivity|]. vm_compute. discriminate.
  - split; [vm_compute; reflexivity|]. vm_compute. discriminate.
Qed.

(* ===================================================================== *)
(** ** The device buffer: further properties *)
(* ===================================================================== *)

Section Template.
Context {T : Type} `{ElemType T}.

(** *** What a growing [Resize] does *)

(** The growth branch, step by step: the new block and what it holds, the
    old block given back. *)
Lemma Resize_grow_inv rows cols beam batches (d : device T) m p b w' :
  data_ m = Some p ->
  mem d !! p = Some b ->
  arrSize_ m < SizeT.wrap (rows * cols * beam * batches) ->
  Resize rows cols beam batches (World d m) = (Ok tt, w') ->
  let newSize := SizeT.wrap (rows * cols * beam * batches) in
  let n' := SizeT.mul newSize sizeof in
  let nc := SizeT.mul (size m) sizeof in
  let k := slots nc in
  (n' = 0 /\ nc = 0 /\
   w' = World (Device (delete p (mem d)) (avail d + bytes b))
              (MkTMatrix rows cols beam batches newSize nullptr))
  \/
  (n' <> 0 /\ (nc = 0 \/ nc <= n' /\ nc <= bytes b) /\
   exists a,
     mem d !! a = None /\
     w' = World
            (Device
               (delete p
                  (<[a := Block n' (take k (cells b) ++
                                    drop k (replicate (slots n') Garbage))]>
                     (mem d)))
               (avail d - n' + bytes b))
            (MkTMatrix rows cols beam batches newSize (Some a))).
Proof.
  intros Hp Hb Hgrow E newSize n' nc k.
  unfold Resize in E. rewrite newSize_wrap in E. fold newSize in E.
  assert (Hlt : (arrSize_ m <? newSize) = true)
    by (apply Z.ltb_lt; exact Hgrow).
  unfold_M; simpl in E. rewrite Hp in E. simpl in E. rewrite Hlt in E.
  simpl in E. fold n' in E.
  destruct (cudaMalloc n' d) as [e | [q d1]] eqn:Ea; simpl in E;
    [discriminate|].
  fold nc in E.
  destruct (cudaMemcpyAsync q (Some p) nc d1) as [e | [[] d2]] eqn:Ec;
    simpl in E; [discriminate|].
  destruct (mem d2 !! p) as [b2|] eqn:Hp2; simpl in E; [|discriminate].
  injection E as <-.
  apply cudaMalloc_inv in Ea
      as [(Hz & -> & ->) | (Hnz & a & -> & Hfresh & ->)].
  - left. unfold cudaMemcpyAsync in Ec.
    destruct (Z.eqb_spec nc 0) as [Hnc|Hnc]; [|discriminate].
    injection Ec as <-. rewrite Hb in Hp2. injection Hp2 as <-. done.
  - right. split; [done|].
    assert (Hap : a <> p) by congruence.
    unfold cudaMemcpyAsync in Ec. simpl in Ec.
    destruct (Z.eqb_spec nc 0) as [Hnc|Hnc].
    + injection Ec as <-. simpl in Hp2.
      rewrite lookup_insert_ne, Hb in Hp2 by done. injection Hp2 as <-.
      split; [by left|]. exists a. split; [done|].
      unfold k. rewrite Hnc, slots_0. simpl. done.
    + rewrite lookup_insert_eq, lookup_insert_ne, Hb in Ec by done.
      simpl in Ec.
      destruct (Z.ltb_spec n' nc) as [|Hle1]; [discriminate|].
      destruct (Z.ltb_spec (bytes b) nc) as [|Hle2]; [discriminate|].
      simpl in Ec. injection Ec as <-. simpl in Hp2.
      rewrite lookup_insert_ne, lookup_insert_ne, Hb in Hp2 by done.
      injection Hp2 as <-.
      split; [right; done|]. exists a. split; [done|].
      rewrite insert_insert_eq. done.
Qed.

(** X1.  A [Resize] that has to grow (the element count asked for exceeds
    the capacity) of a matrix that owns its memory: the capacity becomes
    exactly the new element count; the data live in a block that was not
    live before; the old block is released, so a pointer obtained from
    [data()] before the call is dangling; and the first [size()] elements
    the matrix held are the first elements of the new region (all that
    [size() * sizeof(T)] bytes hold, that is [size()] of them when that
    byte count fits a [size_t]). *)
Theorem Resize_growth_keeps_content
    rows cols beam batches (d : device T) m p w' :
  owns d m ->
  data_ m = Some p ->
  arrSize_ m < SizeT.wrap (rows * cols * beam * batches) ->
  Resize rows cols beam batches (World d m) = (Ok tt, w') ->
  this w' = MkTMatrix rows cols beam batches
                      (SizeT.wrap (rows * cols * beam * batches))
                      (data_ (this w')) /\
  data_ (this w') <> Some p /\
  (forall a, data_ (this w') = Some a -> mem d !! a = None) /\
  contents (dev w') (Some p) = None /\
  (let k := slots (SizeT.mul (size m) sizeof) in
   take k (region (dev w') (data_ (this w'))) = take k (region d (Some p))) /\
  (size m * sizeof < SizeT.modulus ->
   take (Z.to_nat (size m)) (region (dev w') (data_ (this w')))
   = logical_content d m).
Proof.
  intros Hown Hp Hgrow E.
  unfold owns in Hown. rewrite Hp in Hown.
  destruct Hown as (b & Hb & Hbytes & Hb0 & Hlen).
  pose proof (Resize_grow_inv _ _ _ _ _ _ _ _ _ Hp Hb Hgrow E) as Hinv.
  cbv zeta in Hinv.
  set (k := slots (SizeT.mul (size m) sizeof)) in *.
  assert (Hold : region d (Some p) = cells b) by (by apply region_Some).
  assert (Hmain :
    this w' = MkTMatrix rows cols beam batches
                        (SizeT.wrap (rows * cols * beam * batches))
                        (data_ (this w')) /\
    data_ (this w') <> Some p /\
    (forall a, data_ (this w') = Some a -> mem d !! a = None) /\
    contents (dev w') (Some p) = None /\
    take k (region (dev w') (data_ (this w'))) = take k (region d (Some p))).
  { destruct Hinv as [(Hn' & Hnc & ->) | (Hn' & Hnc & a & Hfresh & ->)]; simpl.
    - split; [done|]. split; [done|]. split; [done|].
      split; [unfold contents; simpl; by rewrite lookup_delete_eq|].
      unfold k. rewrite Hnc, slots_0. done.
    - assert (Hap : a <> p) by congruence.
      split; [done|]. split; [congruence|].
      split; [intros a' [= <-]; done|].
      split; [unfold contents; simpl; by rewrite lookup_delete_eq|].
      erewrite region_Some
        by (simpl; rewrite lookup_delete_ne by done; apply lookup_insert_eq).
      simpl. rewrite Hold.
      assert (Hk : (k <= length (cells b))%nat).
      { destruct Hnc as [Hnc | [_ Hnc]].
        - unfold k. rewrite Hnc, slots_0. lia.
        - rewrite Hlen. by apply slots_mono. }
      rewrite take_app_le by (rewrite length_take; lia).
      rewrite take_take. f_equal. lia. }
  destruct Hmain as (H1 & H2 & H3 & H4 & H5).
  repeat (split; [assumption|]).
  intros Hfit. unfold logical_content. rewrite Hp.
  assert (Hk : k = Z.to_nat (size m)).
  { unfold k, SizeT.mul. pose proof (size_nonneg m). pose proof sizeof_pos.
    rewrite wrap_small by nia. by apply slots_exact. }
  rewrite <- Hk. exact H5.
Qed.

(** X2.  [Resize] of a matrix that has memory, to a shape with neither
    [rows] nor [cols] zero.  Within the capacity it cannot fail and
    changes nothing but the four shape members: no allocation, no copy,
    same pointer, same device.  In every case the capacity afterwards is
    the larger of the old capacity and the element count asked for, so it
    never shrinks. *)
Theorem Resize_capacity_policy rows cols beam batches (d : device T) m p :
  data_ m = Some p ->
  rows <> 0 -> cols <> 0 ->
  let newSize := SizeT.wrap (rows * cols * beam * batches) in
  (newSize <= arrSize_ m ->
   Resize rows cols beam batches (World d m)
   = (Ok tt, World d (MkTMatrix rows cols beam batches (arrSize_ m) (Some p))))
  /\
  (forall w',
      Resize rows cols beam batches (World d m) = (Ok tt, w') ->
      arrSize_ (this w') = Z.max (arrSize_ m) newSize).
Proof.
  intros Hp Hr Hc newSize.
  assert (Hz : (rows =? 0) || (cols =? 0) = false).
  { apply orb_false_iff. by rewrite !Z.eqb_neq. }
  assert (Hfit : newSize <= arrSize_ m ->
    Resize rows cols beam batches (World d m)
    = (Ok tt,
       World d (MkTMatrix rows cols beam batches (arrSize_ m) (Some p)))).
  { intros Hle. unfold Resize. rewrite newSize_wrap. fold newSize.
    unfold_M; simpl. rewrite Hp. simpl.
    destruct (Z.ltb_spec (arrSize_ m) newSize) as [|_]; [lia|].
    rewrite Hz. simpl. by rewrite Hp. }
  split; [exact Hfit|].
  intros w' E.
  destruct (Z.lt_ge_cases (arrSize_ m) newSize) as [Hlt | Hge].
  - assert (Harr : arrSize_ (this w') = newSize).
    { apply Z.ltb_lt in Hlt. unfold Resize in E. rewrite newSize_wrap in E.
      fold newSize in E. unfold_M; simpl in E. rewrite Hp in E. simpl in E.
      rewrite Hlt in E. simpl in E.
      repeat (case_match; simplify_eq; simpl in * ). done. }
    rewrite Harr. apply Z.ltb_lt in Hlt. lia.
  - rewrite (Hfit Hge) in E. injection E as <-. simpl. lia.
Qed.

(** X3.  When the device has not the memory for the region a [Resize]
    needs (a first allocation, or a growth), the call raises the device
    fault of the failed [cudaMalloc] before anything is changed: the
    matrix keeps its shape, capacity and pointer, and the device its
    blocks. *)
Theorem Resize_out_of_memory rows cols beam batches (w : world T) :
  let newSize := SizeT.wrap (rows * cols * beam * batches) in
  data_ (this w) = nullptr \/ arrSize_ (this w) < newSize ->
  SizeT.mul newSize sizeof <> 0 ->
  avail (dev w) < SizeT.mul newSize sizeof ->
  Resize rows cols beam batches w
  = (Raise (DeviceFault cudaErrorMemoryAllocation), w).
Proof.
  intros newSize Hpath Hn Hav. destruct w as [d m]. simpl in *.
  assert (Ea : cudaMalloc (SizeT.mul newSize sizeof) d
               = inl cudaErrorMemoryAllocation).
  { unfold cudaMalloc.
    destruct (Z.eqb_spec (SizeT.mul newSize sizeof) 0); [done|].
    destruct (Z.ltb_spec (avail d) (SizeT.mul newSize sizeof)); [done | lia]. }
  unfold Resize. rewrite newSize_wrap. fold newSize.
  unfold_M; simpl.
  destruct (data_ m) as [p|] eqn:Hp; simpl.
  - destruct Hpath as [|Hlt]; [done|].
    apply Z.ltb_lt in Hlt. rewrite Hlt. simpl. by rewrite Ea.
  - by rewrite Ea.
Qed.

End Template.

Section Template.
Context {T : Type} `{ElemType T}.

(** *** Giving memory back *)

Lemma balanced_refl (d : device T) p : balanced d p d p.
Proof. done. Qed.

Lemma balanced_trans (d1 d2 d3 : device T) p1 p2 p3 :
  balanced d1 p1 d2 p2 -> balanced d2 p2 d3 p3 -> balanced d1 p1 d3 p3.
Proof. unfold balanced. intros [-> E1] [-> E2]. split; [done | lia]. Qed.

(** A device is its blocks and its free bytes. *)
Lemma balanced_null (d d' : device T) :
  balanced d nullptr d' nullptr -> d' = d.
Proof.
  unfold balanced. simpl. intros [Hm Ha].
  destruct d, d'. simpl in *. f_equal; [done | lia].
Qed.

(** [Clear] on a matrix that owns its memory cannot fail. *)
Lemma Clear_succeeds (d : device T) m :
  owns d m ->
  exists d', Clear (World d m) = (Ok tt, World d' TMatrix_default).
Proof.
  intros Hown. unfold owns in Hown. unfold Clear. unfold_M; simpl.
  destruct (data_ m) as [p|]; simpl.
  - destruct Hown as (b & -> & _). simpl. eauto.
  - eauto.
Qed.

Lemma balanced_Clear (w w' : world T) :
  Clear w = (Ok tt, w') ->
  balanced (dev w) (data_ (this w)) (dev w') (data_ (this w')).
Proof.
  destruct w as [d m]. unfold Clear. unfold_M; simpl. intros E.
  destruct (data_ m) as [p|]; simpl in E.
  - destruct (mem d !! p) as [b|] eqn:Hb; simpl in E; [|discriminate].
    injection E as <-. unfold balanced. simpl. rewrite Hb. simpl.
    split; [done | lia].
  - injection E as <-. done.
Qed.

Lemma balanced_Reshape rows cols beam batches (w w' : world T) :
  Reshape rows cols beam batches w = (Ok tt, w') ->
  balanced (dev w) (data_ (this w)) (dev w') (data_ (this w')).
Proof.
  destruct w as [d m]. unfold Reshape. intros E. run_M. done.
Qed.

Lemma balanced_alloc (d : device T) a blk :
  mem d !! a = None ->
  balanced d nullptr
           (Device (<[a := blk]> (mem d)) (avail d - bytes blk)) (Some a).
Proof.
  intros Hfresh. unfold balanced. simpl.
  rewrite delete_insert_id, lookup_insert_eq by done. simpl.
  split; [done | lia].
Qed.

Lemma balanced_Resize rows cols beam batches (w w' : world T) :
  owns (dev w) (this w) ->
  Resize rows cols beam batches w = (Ok tt, w') ->
  balanced (dev w) (data_ (this w)) (dev w') (data_ (this w')).
Proof.
  destruct w as [d m]. simpl. intros Hown E.
  destruct (data_ m) as [p|] eqn:Hp.
  - unfold owns in Hown. rewrite Hp in Hown.
    destruct Hown as (b & Hb & _).
    destruct (Z.lt_ge_cases (arrSize_ m)
                (SizeT.wrap (rows * cols * beam * batches))) as [Hlt | Hge].
    + destruct (Resize_grow_inv _ _ _ _ _ _ _ _ _ Hp Hb Hlt E)
        as [(_ & _ & ->) | (_ & _ & a & Hfresh & ->)];
        unfold balanced; simpl; rewrite Hb; simpl.
      * split; [done | lia].
      * assert (Hap : a <> p) by congruence.
        rewrite lookup_delete_ne, lookup_insert_eq by done. simpl.
        rewrite delete_delete, delete_insert_id by done.
        split; [done | lia].
    + unfold Resize, Clear in E. rewrite newSize_wrap in E.
      apply Z.ltb_ge in Hge.
      unfold_M; simpl in E. rewrite Hp in E. simpl in E. rewrite Hge in E.
      destruct ((rows =? 0) || (cols =? 0)); simpl in E.
      * rewrite Hp in E. simpl in E. rewrite Hb in E. simpl in E.
        injection E as <-. unfold balanced. simpl. rewrite Hb. simpl.
        split; [done | lia].
      * injection E as <-. simpl. by rewrite Hp.
  - apply Resize_initial in E as Hinit; [|done].
    unfold Resize in E. unfold_M; simpl in E. rewrite Hp in E. simpl in E.
    destruct (cudaMalloc _ d) as [e | [q d1]] eqn:Ea; simpl in E;
      [discriminate|].
    injection E as <-. simpl.
    apply cudaMalloc_inv in Ea
        as [(_ & -> & ->) | (_ & a & -> & Hfresh & ->)]; [done|].
    by apply (balanced_alloc d a (Block _ _)).
Qed.

Lemma balanced_exec_all cs (w w' : world T) :
  owns (dev w) (this w) ->
  exec_all cs w = (Ok tt, w') ->
  balanced (dev w) (data_ (this w)) (dev w') (data_ (this w')).
Proof.
  revert w. induction cs as [|c cs IH]; intros w Hw E; simpl in E.
  - unfold_M. simplify_eq. apply balanced_refl.
  - unfold mbind, M_bind in E.
    destruct (exec c w) as [[[]|e] w1] eqn:Ec; [|discriminate].
    assert (Hw1 : owns (dev w1) (this w1)).
    { apply (owns_exec_all [c] w w1 Hw). simpl. unfold mbind, M_bind.
      rewrite Ec. done. }
    eapply balanced_trans; [|apply (IH w1 Hw1 E)].
    destruct c; simpl in Ec.
    + by eapply balanced_Resize.
    + by eapply balanced_Reshape.
    + by eapply balanced_Clear.
Qed.

(** X4.  A client that only resizes, reshapes and clears a matrix that
    owns its memory leaks nothing and disturbs nobody: after any sequence
    of such calls that completes, every block of the device other than
    the matrix's own is as it was, and the free bytes plus the bytes the
    matrix holds add up to what they did. *)
Theorem calls_neither_leak_nor_disturb cs (w w' : world T) :
  owns (dev w) (this w) ->
  exec_all cs w = (Ok tt, w') ->
  foreign (dev w') (data_ (this w')) = foreign (dev w) (data_ (this w)) /\
  avail (dev w') + held (dev w') (data_ (this w'))
  = avail (dev w) + held (dev w) (data_ (this w)) /\
  owns (dev w') (this w').
Proof.
  intros Hw E.
  destruct (balanced_exec_all cs w w' Hw E) as [Hf Ha].
  split; [exact Hf|]. split; [exact Ha|].
  exact (owns_exec_all cs w w' Hw E).
Qed.

(** What a successful copy construction leaves behind. *)
Lemma TMatrix_copy_inv src (d d' : device T) c :
  TMatrix_copy src d = (Ok c, d') ->
  c = MkTMatrix (rows_ src) (cols_ src) (beam_ src) (batches_ src)
                (arrSize_ src) (data_ c) /\
  balanced d nullptr d' (data_ c) /\
  (data_ c = nullptr \/ exists a, data_ c = Some a /\ is_Some (mem d' !! a)).
Proof.
  unfold TMatrix_copy. unfold_M; simpl. intros E.
  destruct (cudaMalloc _ d) as [e | [q d1]] eqn:Ea; simpl in E;
    [discriminate|].
  destruct (cudaMemcpyAsync q _ _ d1) as [e | [[] d2]] eqn:Ec; simpl in E;
    [discriminate|].
  injection E as <- <-. simpl. split; [done|].
  apply cudaMalloc_inv in Ea
      as [(Hz & -> & ->) | (Hnz & a & -> & Hfresh & ->)].
  - unfold cudaMemcpyAsync in Ec. rewrite Hz in Ec. simpl in Ec.
    injection Ec as <-. split; [done | by left].
  - unfold cudaMemcpyAsync in Ec.
    rewrite (proj2 (Z.eqb_neq _ 0) Hnz) in Ec.
    destruct (data_ src) as [s|]; [|discriminate].
    simpl in Ec. rewrite lookup_insert_eq in Ec.
    destruct (<[a:=_]> (mem d) !! s) as [bs|]; [|discriminate].
    simpl in Ec. rewrite Z.ltb_irrefl in Ec. simpl in Ec.
    destruct (bytes bs <? _); [discriminate|].
    injection Ec as <-. rewrite insert_insert_eq.
    split; [|right; exists a; split; [done|]; simpl;
             rewrite lookup_insert_eq; eauto].
    apply (balanced_alloc d a (Block _ _)). done.
Qed.

Lemma balanced_sized rows cols beam batches zero (d d' : device T) m :
  TMatrix_sized rows cols beam batches zero d = (Ok m, d') ->
  balanced d nullptr d' (data_ m).
Proof.
  unfold TMatrix_sized. unfold_M; simpl. intros E.
  destruct (cudaMalloc _ d) as [e | [q d1]] eqn:Ea; simpl in E;
    [discriminate|].
  apply cudaMalloc_inv in Ea
      as [(Hz & -> & ->) | (Hnz & a & -> & Hfresh & ->)].
  - destruct zero; simpl in E.
    + unfold cudaMemset0 in E. rewrite Hz in E. simpl in E.
      injection E as <- <-. done.
    + injection E as <- <-. done.
  - destruct zero; simpl in E.
    + unfold cudaMemset0 in E. rewrite (proj2 (Z.eqb_neq _ 0) Hnz) in E.
      simpl in E. rewrite lookup_insert_eq in E. simpl in E.
      rewrite Z.ltb_irrefl in E. simpl in E. injection E as <- <-. simpl.
      rewrite insert_insert_eq. by apply (balanced_alloc d a (Block _ _)).
    + injection E as <- <-. simpl. by apply (balanced_alloc d a (Block _ _)).
Qed.

(** The destructor of a matrix whose pointer is null or live gives the
    memory back. *)
Lemma Clear_live (d : device T) m :
  (data_ m = nullptr \/ exists a, data_ m = Some a /\ is_Some (mem d !! a)) ->
  exists d', destructor (World d m) = (Ok tt, World d' TMatrix_default).
Proof.
  intros Hlive. unfold destructor, Clear. unfold_M; simpl.
  destruct Hlive as [-> | (a & -> & [b Hb])]; simpl; [eauto|].
  rewrite Hb. simpl. eauto.
Qed.

(** X5.  Construction followed by destruction is a round trip on the
    device: after [TMatrix(rows, cols, beam, batches, zero)] or the copy
    constructor, the destructor of the new matrix cannot fail and leaves
    the device exactly as it was before the construction (the same
    blocks, the same free memory). *)
Theorem construct_then_destroy_restores_device (d d' : device T) m :
  (exists rows cols beam batches zero,
      TMatrix_sized rows cols beam batches zero d = (Ok m, d')) \/
  (exists src, TMatrix_copy src d = (Ok m, d')) ->
  destructor (World d' m) = (Ok tt, World d TMatrix_default).
Proof.
  intros Hbuilt.
  assert (Hb : balanced d nullptr d' (data_ m) /\
               (data_ m = nullptr \/
                exists a, data_ m = Some a /\ is_Some (mem d' !! a))).
  { destruct Hbuilt as [(rows & cols & beam & batches & zero & E) | (src & E)].
    - split; [by eapply balanced_sized|].
      apply TMatrix_sized_inv in E as (p & -> & Hown & _). simpl.
      unfold owns in Hown. simpl in Hown.
      destruct p as [a|]; [right | by left].
      destruct Hown as (b & Hb & _). eauto.
    - apply TMatrix_copy_inv in E as (_ & Hbal & Hlive). done. }
  destruct Hb as [Hbal Hlive].
  destruct (Clear_live d' m Hlive) as [d'' E]. rewrite E.
  apply balanced_Clear in E. simpl in E.
  rewrite (balanced_null d d''); [done|].
  eapply balanced_trans; eassumption.
Qed.

(** X6.  [Clear] on a matrix that owns its memory cannot fail; it leaves
    the default-constructed state with the block released, and a second
    [Clear] (the destructor's, after an explicit one) is a no-op that
    cannot fail either. *)
Theorem Clear_is_safe_to_repeat (d : device T) m :
  owns d m ->
  exists d',
    Clear (World d m) = (Ok tt, World d' TMatrix_default) /\
    contents d' (data_ m) = None /\
    Clear (World d' TMatrix_default) = (Ok tt, World d' TMatrix_default).
Proof.
  intros Hown. destruct (Clear_succeeds d m Hown) as [d' E].
  exists d'. split; [exact E|]. split; [|reflexivity].
  unfold Clear in E. unfold_M; simpl in E. unfold contents.
  destruct (data_ m) as [p|]; simpl in *; [|done].
  destruct (mem d !! p); simpl in E; [|discriminate].
  injection E as <-. simpl. by rewrite lookup_delete_eq.
Qed.

End Template.

(** *** Moving and swapping *)

Section Template.
Context {T : Type} `{ElemType T}.

(** X7.  The move constructor transfers ownership without touching the
    device: the new matrix has every member of the source (so it owns
    what the source owned), the source is left as a default-constructed
    matrix, and the destructor of the moved-from source frees nothing
    (the device is unchanged), so the block is released once only, by the
    new owner. *)
Theorem move_transfers_ownership (d : device T) m :
  (TMatrix_move m).1 = m /\
  (TMatrix_move m).2 = TMatrix_default /\
  (owns d m -> owns d (TMatrix_move m).1) /\
  destructor (World d (TMatrix_move m).2) = (Ok tt, World d TMatrix_default) /\
  (owns d m ->
   exists d',
     destructor (World d (TMatrix_move m).1)
     = (Ok tt, World d' TMatrix_default) /\
     contents d' (data_ m) = None).
Proof.
  assert (E1 : (TMatrix_move m).1 = m) by (by destruct m).
  rewrite E1. repeat (split; [done|]).
  intros Hown. destruct (Clear_succeeds d m Hown) as [d' E].
  exists d'. split; [exact E|].
  unfold Clear in E. unfold_M; simpl in E. unfold contents.
  destruct (data_ m) as [p|]; simpl in *; [|done].
  destruct (mem d !! p); simpl in E; [|discriminate].
  injection E as <-. simpl. by rewrite lookup_delete_eq.
Qed.

(** *** Reshaping *)

(** X8.  [Reshape2D] folds the beam and batch dimensions into the rows:
    the element count [size()], the columns, the capacity and the pointer
    are unchanged, [dim(2)] and [dim(3)] become 1, it is idempotent, and
    on a matrix whose capacity covers its size it is the [Reshape] to
    [(rows_ * beam_ * batches_, cols_, 1, 1)], which cannot fail. *)
Theorem Reshape2D_flattens (d : device T) m :
  size (Reshape2D m) = size m /\
  dim (Reshape2D m) 0 = Some (SizeT.wrap (rows_ m * beam_ m * batches_ m)) /\
  dim (Reshape2D m) 1 = dim m 1 /\
  dim (Reshape2D m) 2 = Some 1 /\
  dim (Reshape2D m) 3 = Some 1 /\
  arrSize_ (Reshape2D m) = arrSize_ m /\
  data_ (Reshape2D m) = data_ m /\
  Reshape2D (Reshape2D m) = Reshape2D m /\
  (I1 m ->
   Reshape (SizeT.mul (SizeT.mul (rows_ m) (beam_ m)) (batches_ m))
           (cols_ m) 1 1 (World d m)
   = (Ok tt, World d (Reshape2D m))).
Proof.
  assert (Hrows : SizeT.mul (SizeT.mul (rows_ m) (beam_ m)) (batches_ m)
                  = SizeT.wrap (rows_ m * beam_ m * batches_ m)).
  { unfold SizeT.mul at 2. by rewrite mul_wrap_l. }
  split; [apply size_Reshape2D|].
  split; [unfold Reshape2D, dim; simpl; by rewrite Hrows|].
  repeat (split; [done|]).
  split.
  - assert (Hagain :
      SizeT.mul (SizeT.mul (SizeT.wrap (rows_ m * beam_ m * batches_ m)) 1) 1
      = SizeT.wrap (rows_ m * beam_ m * batches_ m)).
    { unfold SizeT.mul. rewrite Z.mul_1_r.
      rewrite (wrap_small (SizeT.wrap _)) by apply wrap_range.
      rewrite Z.mul_1_r. apply wrap_small, wrap_range. }
    unfold Reshape2D, set_rows_, set_beam_, set_batches_. simpl.
    rewrite Hrows, Hagain. done.
  - intros Hinv. rewrite Reshape_fits.
    + unfold Reshape2D. simpl. done.
    + simpl. unfold I1 in Hinv. rewrite <- size_Reshape2D in Hinv.
      rewrite size_eq in Hinv. unfold Reshape2D in Hinv. simpl in Hinv.
      replace (SizeT.mul (SizeT.mul (rows_ m) (beam_ m)) (batches_ m)
               * cols_ m * 1 * 1)
        with (cols_ m
              * SizeT.mul (SizeT.mul (rows_ m) (beam_ m)) (batches_ m)
              * 1 * 1) by lia.
      exact Hinv.
Qed.

(** X9.  On a matrix obtained through the class, [Reshape] to a shape
    that does not have more elements than the matrix has cannot fail:
    the capacity check can only reject a shape that is larger than the
    current one. *)
Theorem Reshape_to_no_more_elements_succeeds
    rows cols beam batches (w : world T) :
  constructible (T:=T) (this w) ->
  SizeT.wrap (rows * cols * beam * batches) <= size (this w) ->
  Reshape rows cols beam batches w
  = (Ok tt,
     World (dev w)
           (MkTMatrix rows cols beam batches
                      (arrSize_ (this w)) (data_ (this w)))).
Proof.
  intros Hc Hle. apply Reshape_fits.
  apply I1_constructible in Hc. unfold I1 in Hc. lia.
Qed.

(** *** The conversion to [bool], where it is right *)

(** [Resize] always installs the shape it is asked for. *)
Lemma Resize_sets_shape rows cols beam batches (w w' : world T) :
  Resize rows cols beam batches w = (Ok tt, w') ->
  rows_ (this w') = rows /\ cols_ (this w') = cols /\
  beam_ (this w') = beam /\ batches_ (this w') = batches.
Proof.
  unfold Resize, Clear. intros E. destruct w as [d m]. run_M; done.
Qed.

(** X10.  For a matrix of fewer than 2^32 elements [operator bool] is the
    emptiness test: [true] exactly when [size()] is not 0.  So a matrix
    converts to [false] after [Clear], and after any [Resize] with
    [rows == 0] or [cols == 0], and to [true] after a [Resize] to a
    non-empty shape of fewer than 2^32 elements. *)
Theorem operator_bool_tests_emptiness :
  (forall m, size m < 2 ^ 32 -> (operator_bool m = true <-> size m <> 0)) /\
  (forall w w' : world T,
      Clear w = (Ok tt, w') -> operator_bool (this w') = false) /\
  (forall rows cols beam batches (w w' : world T),
      rows = 0 \/ cols = 0 ->
      Resize rows cols beam batches w = (Ok tt, w') ->
      operator_bool (this w') = false) /\
  (forall rows cols beam batches (w w' : world T),
      0 < rows * cols * beam * batches < 2 ^ 32 ->
      Resize rows cols beam batches w = (Ok tt, w') ->
      operator_bool (this w') = true).
Proof.
  split; [exact operator_bool_small|].
  split; [|split].
  - intros w w' E. by rewrite (Clear_resets _ _ E).
  - intros rows cols beam batches w w' Hz E.
    apply Resize_sets_shape in E as (Hr & Hc & Hb & Hbt).
    apply not_true_is_false. intros Ht.
    apply operator_bool_spec in Ht. apply Ht.
    rewrite size_eq, Hr, Hc.
    destruct Hz as [-> | ->]; by rewrite ?Z.mul_0_r, ?Z.mul_0_l.
  - intros rows cols beam batches w w' Hpos E.
    apply Resize_sets_shape in E as (Hr & Hc & Hb & Hbt).
    assert (Hs : size (this w') = rows * cols * beam * batches).
    { rewrite size_eq, Hr, Hc, Hb, Hbt.
      replace (cols * rows * beam * batches)
        with (rows * cols * beam * batches) by lia.
      apply wrap_small. unfold SizeT.modulus. lia. }
    apply operator_bool_small; lia.
Qed.

End Template.

Section Template.
Context {T : Type} `{ElemType T}.

(** *** Construction at the edges *)

(** X11.  Constructing an empty matrix cannot fail and allocates nothing:
    the sized constructor with [rows == 0] or [cols == 0], and the copy
    constructor on a source of capacity 0, leave the device untouched and
    give a matrix with a null pointer and capacity 0 (with [beam_] and
    [batches_] 1 for the sized constructor, the shape of the source for
    the copy). *)
Theorem empty_construction_allocates_nothing (d : device T) :
  (forall rows cols beam batches zero,
      rows = 0 \/ cols = 0 ->
      TMatrix_sized rows cols beam batches zero d
      = (Ok (MkTMatrix rows cols 1 1 0 nullptr), d))
  /\
  (forall src,
      arrSize_ src = 0 ->
      TMatrix_copy src d
      = (Ok (MkTMatrix (rows_ src) (cols_ src) (beam_ src) (batches_ src)
                       0 nullptr), d)).
Proof.
  split.
  - intros rows cols beam batches zero Hz.
    assert (Hs : size (MkTMatrix rows cols 1 1 0 nullptr) = 0).
    { rewrite size_eq. simpl.
      destruct Hz as [-> | ->]; by rewrite ?Z.mul_0_r, ?Z.mul_0_l. }
    unfold TMatrix_sized. rewrite Hs. unfold_M; simpl.
    by destruct zero.
  - intros src Hcap. unfold TMatrix_copy. unfold_M; simpl.
    rewrite Hcap. simpl. done.
Qed.

(** X12.  When the device has not the memory for the region, the sized
    constructor and the copy constructor raise the device fault of the
    failed [cudaMalloc] and leave the device as it was: no block is
    allocated, none is touched. *)
Theorem construction_out_of_memory (d : device T) :
  (forall rows cols beam batches zero,
      let n := SizeT.mul (SizeT.wrap (rows * cols)) sizeof in
      n <> 0 -> avail d < n ->
      TMatrix_sized rows cols beam batches zero d
      = (Raise (DeviceFault cudaErrorMemoryAllocation), d))
  /\
  (forall src,
      let n := SizeT.mul (arrSize_ src) sizeof in
      n <> 0 -> avail d < n ->
      TMatrix_copy src d
      = (Raise (DeviceFault cudaErrorMemoryAllocation), d)).
Proof.
  assert (Hfail : forall n, n <> 0 -> avail d < n ->
                    cudaMalloc n d = inl cudaErrorMemoryAllocation).
  { intros n Hn Hav. unfold cudaMalloc.
    destruct (Z.eqb_spec n 0); [done|].
    destruct (Z.ltb_spec (avail d) n); [done | lia]. }
  split.
  - intros rows cols beam batches zero n Hn Hav.
    assert (Hs : size (MkTMatrix rows cols 1 1 0 nullptr)
                 = SizeT.wrap (rows * cols)).
    { rewrite size_eq. simpl. f_equal. lia. }
    unfold TMatrix_sized. rewrite Hs. unfold_M; simpl. fold n.
    by rewrite (Hfail n Hn Hav).
  - intros src n Hn Hav. unfold TMatrix_copy. unfold_M; simpl. fold n.
    by rewrite (Hfail n Hn Hav).
Qed.

(** X13.  Whatever a client does to an initially empty matrix with
    [Resize] and [Reshape], a final [Clear] returns the device to the
    state it started from: the same blocks and the same free memory. *)
Theorem Clear_after_calls_restores_device cs (w w1 w2 : world T) :
  data_ (this w) = nullptr ->
  SizeT.mul (arrSize_ (this w)) sizeof = 0 ->
  exec_all cs w = (Ok tt, w1) ->
  Clear w1 = (Ok tt, w2) ->
  dev w2 = dev w /\ this w2 = TMatrix_default.
Proof.
  intros Hnull Hcap E1 E2.
  assert (Hown : owns (dev w) (this w)).
  { unfold owns. by rewrite Hnull. }
  pose proof (balanced_exec_all cs w w1 Hown E1) as B1.
  pose proof (balanced_Clear w1 w2 E2) as B2.
  pose proof (Clear_resets w1 w2 E2) as Hthis.
  rewrite Hthis in B2. rewrite Hnull in B1.
  split; [|exact Hthis].
  apply balanced_null. eapply balanced_trans; eassumption.
Qed.

End Template.

(** *** The further properties on the small device *)

Lemma Resize_growth_keeps_content_witness :
  let w := filled in
  let w' := (Resize 3 3 1 1 w).2 in
  owns (dev w) (this w) /\
  data_ (this w) = Some 1%positive /\
  arrSize_ (this w) < SizeT.wrap (3 * 3 * 1 * 1) /\
  size (this w) * sizeof (T:=Z) < SizeT.modulus /\
  this w' = MkTMatrix 3 3 1 1 9 (Some 2%positive) /\
  contents (dev w') (Some 1%positive) = None /\
  take (Z.to_nat (size (this w))) (region (dev w') (data_ (this w')))
  = [Elem 7; Elem 8; Garbage; Garbage].
Proof.
  intros w w'.
  assert (Hown : owns (dev w) (this w)).
  { eexists. vm_compute. repeat split; congruence. }
  assert (Hp : data_ (this w) = Some 1%positive) by reflexivity.
  assert (Hgrow : arrSize_ (this w) < SizeT.wrap (3 * 3 * 1 * 1))
    by (vm_compute; reflexivity).
  assert (Hfit : size (this w) * sizeof (T:=Z) < SizeT.modulus)
    by (vm_compute; reflexivity).
  assert (E : Resize 3 3 1 1 (World (dev w) (this w)) = (Ok tt, w'))
    by (vm_compute; reflexivity).
  destruct (Resize_growth_keeps_content 3 3 1 1 (dev w) (this w) 1%positive w'
              Hown Hp Hgrow E) as (Hthis & _ & _ & Hold & _ & Hkeep).
  split; [exact Hown|]. split; [exact Hp|]. split; [exact Hgrow|].
  split; [exact Hfit|].
  split; [vm_compute; reflexivity|].
  split; [exact Hold|].
  rewrite (Hkeep Hfit). vm_compute. reflexivity.
Defined.

Lemma Resize_capacity_policy_witness :
  let w := filled in
  data_ (this w) = Some 1%positive /\ 1 <> 0 /\ 2 <> 0 /\
  SizeT.wrap (1 * 2 * 1 * 1) <= arrSize_ (this w) /\
  Resize 1 2 1 1 w
  = (Ok tt, World (dev w) (MkTMatrix 1 2 1 1 4 (Some 1%positive))) /\
  arrSize_ (this (Resize 3 3 1 1 w).2) = Z.max 4 9.
Proof.
  intros w.
  assert (Hp : data_ (this w) = Some 1%positive) by reflexivity.
  assert (H1 : 1 <> 0) by discriminate.
  assert (H2 : 2 <> 0) by discriminate.
  assert (H3 : 3 <> 0) by discriminate.
  assert (Hle : SizeT.wrap (1 * 2 * 1 * 1) <= arrSize_ (this w))
    by (vm_compute; discriminate).
  repeat (split; [assumption|]).
  split.
  - exact (proj1 (Resize_capacity_policy 1 2 1 1 (dev w) (this w) 1%positive
                    Hp H1 H2) Hle).
  - apply (proj2 (Resize_capacity_policy 3 3 1 1 (dev w) (this w) 1%positive
                    Hp H3 H3)).
    vm_compute. reflexivity.
Defined.

Lemma Resize_out_of_memory_witness :
  (data_ (this world0) = nullptr \/
   arrSize_ (this world0) < SizeT.wrap (100 * 100 * 1 * 1)) /\
  SizeT.mul (SizeT.wrap (100 * 100 * 1 * 1)) (sizeof (T:=Z)) <> 0 /\
  avail (dev world0) < SizeT.mul (SizeT.wrap (100 * 100 * 1 * 1)) sizeof /\
  Resize 100 100 1 1 world0
  = (Raise (DeviceFault cudaErrorMemoryAllocation), world0).
Proof.
  assert (Hpath : data_ (this world0) = nullptr \/
                  arrSize_ (this world0) < SizeT.wrap (100 * 100 * 1 * 1))
    by (left; reflexivity).
  assert (Hn : SizeT.mul (SizeT.wrap (100 * 100 * 1 * 1)) (sizeof (T:=Z)) <> 0)
    by (vm_compute; discriminate).
  assert (Hav : avail (dev world0)
                < SizeT.mul (SizeT.wrap (100 * 100 * 1 * 1)) sizeof)
    by (vm_compute; reflexivity).
  repeat (split; [assumption|]).
  exact (Resize_out_of_memory 100 100 1 1 world0 Hpath Hn Hav).
Defined.

Lemma calls_neither_leak_nor_disturb_witness :
  let cs := [CallResize 3 3 1 1; CallReshape 1 2 1 1; CallResize 0 5 1 1;
             CallResize 2 1 1 1] in
  let w' := (exec_all cs filled).2 in
  owns (dev filled) (this filled) /\
  foreign (dev w') (data_ (this w'))
  = foreign (dev filled) (data_ (this filled)) /\
  avail (dev w') + held (dev w') (data_ (this w'))
  = avail (dev filled) + held (dev filled) (data_ (this filled)) /\
  owns (dev w') (this w').
Proof.
  intros cs w'.
  assert (Hown : owns (dev filled) (this filled)).
  { eexists. vm_compute. repeat split; congruence. }
  split; [exact Hown|].
  apply (calls_neither_leak_nor_disturb cs filled w' Hown).
  vm_compute. reflexivity.
Defined.

Lemma construct_then_destroy_restores_device_witness :
  let r := TMatrix_copy (this filled) (dev filled) in
  let m := MkTMatrix 2 2 1 1 4 (Some 2%positive) in
  r.1 = Ok m /\
  destructor (World r.2 m) = (Ok tt, World (dev filled) TMatrix_default).
Proof.
  intros r m.
  assert (E : TMatrix_copy (this filled) (dev filled) = (Ok m, r.2))
    by (vm_compute; reflexivity).
  split; [vm_compute; reflexivity|].
  apply (construct_then_destroy_restores_device (dev filled) r.2 m).
  right. exists (this filled). exact E.
Defined.

Lemma Clear_is_safe_to_repeat_witness :
  owns (dev filled) (this filled) /\
  exists d',
    Clear filled = (Ok tt, World d' TMatrix_default) /\
    contents d' (data_ (this filled)) = None /\
    Clear (World d' TMatrix_default) = (Ok tt, World d' TMatrix_default).
Proof.
  assert (Hown : owns (dev filled) (this filled)).
  { eexists. vm_compute. repeat split; congruence. }
  split; [exact Hown|].
  exact (Clear_is_safe_to_repeat (dev filled) (this filled) Hown).
Defined.

Lemma move_transfers_ownership_witness :
  owns (dev filled) (this filled) /\
  owns (dev filled) (TMatrix_move (this filled)).1 /\
  exists d',
    destructor (World (dev filled) (TMatrix_move (this filled)).1)
    = (Ok tt, World d' TMatrix_default) /\
    contents d' (data_ (this filled)) = None.
Proof.
  assert (Hown : owns (dev filled) (this filled)).
  { eexists. vm_compute. repeat split; congruence. }
  destruct (move_transfers_ownership (dev filled) (this filled))
    as (_ & _ & Hto & _ & Hdestroy).
  split; [exact Hown|]. split; [exact (Hto Hown) | exact (Hdestroy Hown)].
Defined.

Lemma Reshape2D_flattens_witness :
  let m := MkTMatrix 2 3 4 5 120 (Some 1%positive) in
  I1 m /\
  Reshape (SizeT.mul (SizeT.mul 2 4) 5) 3 1 1 (World dev0 m)
  = (Ok tt, World dev0 (MkTMatrix 40 3 1 1 120 (Some 1%positive))).
Proof.
  intros m.
  assert (Hinv : I1 m) by (vm_compute; discriminate).
  split; [exact Hinv|].
  destruct (Reshape2D_flattens dev0 m) as (_ & _ & _ & _ & _ & _ & _ & _ & HR).
  exact (HR Hinv).
Defined.

Lemma Reshape_to_no_more_elements_succeeds_witness :
  constructible (T:=Z) (this filled) /\
  SizeT.wrap (1 * 3 * 1 * 1) <= size (this filled) /\
  Reshape 1 3 1 1 filled
  = (Ok tt, World (dev filled) (MkTMatrix 1 3 1 1 4 (Some 1%positive))).
Proof.
  assert (C : constructible (T:=Z) (this filled)).
  { apply (by_Resize 2 2 1 1 world0 (Resize 2 2 1 1 world0).2);
      [apply by_default | vm_compute; reflexivity]. }
  assert (Hle : SizeT.wrap (1 * 3 * 1 * 1) <= size (this filled))
    by (vm_compute; discriminate).
  split; [exact C|]. split; [exact Hle|].
  exact (Reshape_to_no_more_elements_succeeds 1 3 1 1 filled C Hle).
Defined.

Lemma operator_bool_tests_emptiness_witness :
  size (this filled) < 2 ^ 32 /\
  (operator_bool (this filled) = true <-> size (this filled) <> 0) /\
  (0 = 0 \/ 5 = 0) /\
  operator_bool (this (Resize 0 5 1 1 filled).2) = false /\
  0 < 2 * 3 * 1 * 1 < 2 ^ 32 /\
  operator_bool (this (Resize 2 3 1 1 filled).2) = true.
Proof.
  assert (Hlt : size (this filled) < 2 ^ 32) by (vm_compute; reflexivity).
  assert (Hz : 0 = 0 \/ 5 = 0) by (left; reflexivity).
  assert (Hpos : 0 < 2 * 3 * 1 * 1 < 2 ^ 32)
    by (vm_compute; split; reflexivity).
  destruct (operator_bool_tests_emptiness (T:=Z)) as (H1 & _ & H3 & H4).
  split; [exact Hlt|]. split; [exact (H1 (this filled) Hlt)|].
  split; [exact Hz|].
  split.
  - apply (H3 0 5 1 1 filled (Resize 0 5 1 1 filled).2 Hz).
    vm_compute. reflexivity.
  - split; [exact Hpos|].
    apply (H4 2 3 1 1 filled (Resize 2 3 1 1 filled).2 Hpos).
    vm_compute. reflexivity.
Defined.

Lemma empty_construction_allocates_nothing_witness :
  (0 = 0 \/ 5 = 0) /\
  TMatrix_sized 0 5 3 3 true dev0 = (Ok (MkTMatrix 0 5 1 1 0 nullptr), dev0) /\
  arrSize_ (MkTMatrix 0 5 1 1 0 nullptr) = 0 /\
  TMatrix_copy (MkTMatrix 0 5 1 1 0 nullptr) dev0
  = (Ok (MkTMatrix 0 5 1 1 0 nullptr), dev0).
Proof.
  assert (Hz : 0 = 0 \/ 5 = 0) by (left; reflexivity).
  assert (Hcap : arrSize_ (MkTMatrix 0 5 1 1 0 nullptr) = 0) by reflexivity.
  split; [exact Hz|].
  split; [exact (proj1 (empty_construction_allocates_nothing dev0)
                       0 5 3 3 true Hz)|].
  split; [exact Hcap|].
  exact (proj2 (empty_construction_allocates_nothing dev0)
               (MkTMatrix 0 5 1 1 0 nullptr) Hcap).
Defined.

Lemma construction_out_of_memory_witness :
  SizeT.mul (SizeT.wrap (100 * 100)) (sizeof (T:=Z)) <> 0 /\
  avail dev0 < SizeT.mul (SizeT.wrap (100 * 100)) sizeof /\
  TMatrix_sized 100 100 1 1 false dev0
  = (Raise (DeviceFault cudaErrorMemoryAllocation), dev0) /\
  TMatrix_copy (MkTMatrix 100 100 1 1 10000 (Some 1%positive)) dev0
  = (Raise (DeviceFault cudaErrorMemoryAllocation), dev0).
Proof.
  assert (Hn : SizeT.mul (SizeT.wrap (100 * 100)) (sizeof (T:=Z)) <> 0)
    by (vm_compute; discriminate).
  assert (Hav : avail dev0 < SizeT.mul (SizeT.wrap (100 * 100)) sizeof)
    by (vm_compute; reflexivity).
  split; [exact Hn|]. split; [exact Hav|].
  split.
  - exact (proj1 (construction_out_of_memory dev0) 100 100 1 1 false Hn Hav).
  - exact (proj2 (construction_out_of_memory dev0)
                 (MkTMatrix 100 100 1 1 10000 (Some 1%positive)) Hn Hav).
Defined.

Lemma Clear_after_calls_restores_device_witness :
  let cs := [CallResize 2 2 1 1; CallReshape 1 4 1 1; CallResize 3 3 1 1] in
  let w1 := (exec_all cs world0).2 in
  let w2 := (Clear w1).2 in
  data_ (this world0) = nullptr /\
  SizeT.mul (arrSize_ (this world0)) (sizeof (T:=Z)) = 0 /\
  arrSize_ (this w1) = 9 /\
  dev w2 = dev world0 /\ this w2 = TMatrix_default.
Proof.
  intros cs w1 w2.
  assert (Hnull : data_ (this world0) = nullptr) by reflexivity.
  assert (Hcap : SizeT.mul (arrSize_ (this world0)) (sizeof (T:=Z)) = 0)
    by reflexivity.
  assert (E1 : exec_all cs world0 = (Ok tt, w1)) by (vm_compute; reflexivity).
  assert (E2 : Clear w1 = (Ok tt, w2)) by (vm_compute; reflexivity).
  split; [exact Hnull|]. split; [exact Hcap|].
  split; [vm_compute; reflexivity|].
  exact (Clear_after_calls_restores_device cs world0 w1 w2 Hnull Hcap E1 E2).
Defined.

End BufferFacts.

(* ===================================================================== *)
(** ** The batching loop *)
(* ===================================================================== *)

Module SchedulerFacts.
Import amunmt SizeTFacts.

(** *** Sentences *)

Lemma insert_by_length_Permutation s b :
  Sentences.insert_by_length s b ≡ₚ s :: b.
Proof.
  induction b as [|s' b IH]; simpl; [done|].
  case_match; [done|]. rewrite IH. apply Permutation_swap.
Qed.

Lemma SortByLength_Permutation b : Sentences.SortByLength b ≡ₚ b.
Proof.
  induction b as [|s b IH]; simpl; [done|].
  rewrite insert_by_length_Permutation. by f_equiv.
Qed.

Lemma SortByLength_length b :
  length (Sentences.SortByLength b) = length b.
Proof. apply Permutation_length, SortByLength_Permutation. Qed.

(** The model of [SortByLength] does what the design document asks of it:
    the result is in ascending order of length, and sentences of one
    length keep their relative order. *)
Lemma insert_by_length_HdRel a s b :
  Sentences.by_length a s -> HdRel Sentences.by_length a b ->
  HdRel Sentences.by_length a (Sentences.insert_by_length s b).
Proof.
  intros Has Hab. destruct b as [|s' b]; simpl; [by constructor|].
  case_match; constructor; [done|]. by inversion Hab.
Qed.

Lemma insert_by_length_Sorted s b :
  Sorted Sentences.by_length b ->
  Sorted Sentences.by_length (Sentences.insert_by_length s b).
Proof.
  induction 1 as [|s' b Hb IH Hhd]; simpl; [by repeat constructor|].
  destruct (Z.leb_spec (GetLength s) (GetLength s')) as [Hle | Hgt].
  - constructor; [by constructor|]. by constructor.
  - constructor; [exact IH|].
    apply insert_by_length_HdRel; [|exact Hhd].
    unfold Sentences.by_length. lia.
Qed.

Lemma SortByLength_Sorted b :
  Sorted Sentences.by_length (Sentences.SortByLength b).
Proof.
  induction b as [|s b IH]; simpl; [constructor|].
  by apply insert_by_length_Sorted.
Qed.

Lemma insert_by_length_stable k s (b : list Sentence) :
  filter (fun x => GetLength x = k)
         (Sentences.insert_by_length s b : list Sentence)
  = filter (fun x => GetLength x = k) (s :: b).
Proof.
  induction b as [|s' b IH]; [done|].
  cbn [Sentences.insert_by_length].
  destruct (Z.leb_spec (GetLength s) (GetLength s')) as [Hle | Hgt]; [done|].
  rewrite !filter_cons, IH, !filter_cons.
  repeat case_decide; first [done | lia].
Qed.

Lemma SortByLength_stable k (b : list Sentence) :
  filter (fun x => GetLength x = k) (Sentences.SortByLength b : list Sentence)
  = filter (fun x => GetLength x = k) b.
Proof.
  induction b as [|s b IH]; [done|].
  cbn [Sentences.SortByLength foldr].
  rewrite insert_by_length_stable, !filter_cons.
  fold (Sentences.SortByLength b). rewrite IH. done.
Qed.

Lemma size_zero b : Sentences.size b = 0 <-> b = [].
Proof. unfold Sentences.size. destruct b; simpl; split; (done || lia). Qed.

(** *** The numbering of the input *)

Lemma sentences_from_wrap k input :
  sentences_from (SizeT.wrap k) input
  = imap (fun i line => new_Sentence (SizeT.wrap (k + Z.of_nat i)) line) input.
Proof.
  revert k. induction input as [|line input IH]; intros k; simpl; [done|].
  rewrite Z.add_0_r. f_equal.
  rewrite succ_wrap, IH. apply imap_ext. intros i x _. simpl.
  do 2 f_equal. lia.
Qed.

Lemma sentences_from_0 input : sentences_from 0 input = input_sentences input.
Proof.
  change 0 with (SizeT.wrap 0) at 1. rewrite sentences_from_wrap. reflexivity.
Qed.

(** Below [2^64] lines the number of a sentence is its position. *)
Lemma input_sentences_positions input :
  Z.of_nat (length input) <= SizeT.modulus ->
  input_sentences input
  = imap (fun i line => new_Sentence (Z.of_nat i) line) input.
Proof.
  intros Hlen. apply imap_ext. intros i x Hi. simpl.
  apply lookup_lt_Some in Hi. rewrite wrap_small; [done|]. lia.
Qed.

(** The numbers carried are then 0, 1, ..., N - 1. *)
Lemma positions_line_numbers k input :
  GetLineNum <$> imap (fun i line => new_Sentence (Z.of_nat (k + i)) line) input
  = Z.of_nat <$> seq k (length input).
Proof.
  revert k. induction input as [|line input IH]; intros k; [done|].
  rewrite imap_cons. cbn [length seq]. rewrite !fmap_cons.
  rewrite Nat.add_0_r. f_equal. rewrite <- (IH (S k)). f_equal.
  apply imap_ext. intros i x _. simpl. do 2 f_equal. lia.
Qed.

(** *** The slicing loop *)

(** With a positive mini-batch size the loop empties the accumulator in at
    most as many rounds as it holds sentences, handing over its content
    in consecutive non-empty slices of at most [miniSize]. *)
Lemma slice_finishes fuel miniSize st :
  0 < miniSize -> (length (maxiBatch st) < fuel)%nat ->
  exists chunks,
    slice fuel miniSize st
    = Finished (State (lineNum st) [] (pool st ++ chunks)) /\
    concat chunks = maxiBatch st /\
    Forall (fun c => c <> [] /\ Z.of_nat (length c) <= miniSize) chunks.
Proof.
  intros Hmini. revert st.
  induction fuel as [|fuel IH]; intros [ln b q] Hfuel; simpl in *; [lia|].
  destruct (Z.eqb_spec (Sentences.size b) 0) as [Hz | Hnz].
  - apply size_zero in Hz as ->. exists []. rewrite app_nil_r. done.
  - assert (Hb : b <> []) by (by rewrite <- size_zero).
    set (n := Z.to_nat miniSize).
    assert (Hn : (0 < n)%nat) by lia.
    destruct (IH (State ln (drop n b) (enqueue q (take n b))))
      as (cs & E & Hc & Hall).
    { simpl. rewrite length_drop. destruct b; [done|]. simpl in *. lia. }
    exists (take n b :: cs). simpl in *.
    rewrite E. unfold enqueue. rewrite <- app_assoc. simpl.
    split; [done|]. split; [by rewrite Hc, take_drop|].
    constructor; [|done]. split.
    + destruct b; [done|]. destruct n; [lia|]. done.
    + rewrite length_take. lia.
Qed.

Lemma sort_and_slice_finishes fuel miniSize st :
  0 < miniSize -> (length (maxiBatch st) < fuel)%nat ->
  exists chunks,
    sort_and_slice fuel miniSize st
    = Finished (State (lineNum st) [] (pool st ++ chunks)) /\
    concat chunks ≡ₚ maxiBatch st /\
    Forall (fun c => c <> [] /\ Z.of_nat (length c) <= miniSize) chunks.
Proof.
  intros Hmini Hfuel. unfold sort_and_slice.
  destruct (slice_finishes fuel miniSize
              (State (lineNum st) (Sentences.SortByLength (maxiBatch st))
                     (pool st)) Hmini) as (cs & E & Hc & Hall).
  { simpl. by rewrite SortByLength_length. }
  exists cs. simpl in *. split; [done|]. split; [|done].
  rewrite Hc. apply SortByLength_Permutation.
Qed.

(** *** The reading loop *)

Lemma read_loop_cons fuel miniSize maxiSize line input st :
  read_loop fuel miniSize maxiSize (line :: input) st
  = if maxiSize <=? Sentences.size (maxiBatch (submit line st)) then
      match sort_and_slice fuel miniSize (submit line st) with
      | Finished st' =>
          read_loop fuel miniSize maxiSize input
                    (State (lineNum st') [] (pool st'))
      | OutOfFuel st' => OutOfFuel st'
      end
    else read_loop fuel miniSize maxiSize input (submit line st).
Proof. reflexivity. Qed.

Lemma read_loop_finishes fuel miniSize maxiSize input st :
  0 < miniSize ->
  (length (maxiBatch st) + length input < fuel)%nat ->
  exists st',
    read_loop fuel miniSize maxiSize input st = Finished st' /\
    (length (maxiBatch st') <= length (maxiBatch st) + length input)%nat /\
    concat (pool st') ++ maxiBatch st'
    ≡ₚ concat (pool st) ++ maxiBatch st ++ sentences_from (lineNum st) input.
Proof.
  intros Hmini. revert st.
  induction input as [|line input IH]; intros st Hfuel.
  { exists st. simpl. rewrite !app_nil_r. split; [done|]. split; [lia | done]. }
  rewrite read_loop_cons.
  set (st1 := submit line st).
  assert (Hlen1 : length (maxiBatch st1) = S (length (maxiBatch st))).
  { simpl. unfold Sentences.push_back. rewrite length_app. simpl. lia. }
  simpl in Hfuel.
  destruct (maxiSize <=? Sentences.size (maxiBatch st1)).
  - (* the accumulator is full: sort, slice, start afresh *)
    destruct (sort_and_slice_finishes fuel miniSize st1 Hmini)
      as (cs & E & Hc & _); [lia|].
    rewrite E.
    destruct (IH (State (lineNum st1) [] (pool st1 ++ cs)))
      as (st' & E' & Hlen' & Hperm'); [simpl; lia|].
    exists st'. split; [exact E'|]. split; [simpl in Hlen' |- *; lia|].
    rewrite Hperm'. simpl. rewrite concat_app, Hc. simpl.
    unfold Sentences.push_back. rewrite <- !app_assoc. done.
  - destruct (IH st1) as (st' & E' & Hlen' & Hperm'); [lia|].
    exists st'. split; [exact E'|]. split; [simpl; lia|].
    rewrite Hperm'. simpl.
    unfold Sentences.push_back. rewrite <- !app_assoc. done.
Qed.

(** [main] returns, with the accumulator empty and every sentence of the
    input in exactly one task of the pool. *)
Lemma main_dispatches_everything fuel miniSize maxiSize input :
  0 < miniSize ->
  (length input < fuel)%nat ->
  exists st,
    main fuel miniSize maxiSize input = Finished st /\
    maxiBatch st = [] /\
    concat (pool st) ≡ₚ input_sentences input.
Proof.
  intros Hmini Hfuel. unfold main.
  destruct (read_loop_finishes fuel miniSize maxiSize input (State 0 [] [])
                               Hmini)
    as (st1 & E1 & Hlen1 & Hperm1); [simpl; lia|].
  rewrite E1. simpl in Hlen1, Hperm1. rewrite sentences_from_0 in Hperm1.
  unfold last_batch.
  destruct (Z.eqb_spec (Sentences.size (maxiBatch st1)) 0) as [Hz | Hnz].
  - apply size_zero in Hz. exists st1. rewrite Hz, app_nil_r in Hperm1. done.
  - destruct (sort_and_slice_finishes fuel miniSize st1 Hmini)
      as (cs & E & Hc & _); [lia|].
    eexists. split; [exact E|]. simpl. split; [done|].
    by rewrite concat_app, Hc.
Qed.

(** C1.  For every input of N lines, with [miniSize > 0] and
    [maxiSize > 0], the scheduling loop of [main] terminates (N + 1 rounds
    of each slicing loop are enough) and the mini-batches handed to the
    pool contain, taken together, exactly the N sentences of the input,
    each once, each carrying the value [lineNum] had when its line was
    read: its 0-based position in the input (for any input of at most
    2^64 lines, where the counter has not wrapped), so that the numbers
    0, ..., N - 1 occur once each. *)
Theorem every_sentence_dispatched_once fuel miniSize maxiSize input :
  0 < miniSize ->
  0 < maxiSize ->
  (length input < fuel)%nat ->
  exists st,
    main fuel miniSize maxiSize input = Finished st /\
    maxiBatch st = [] /\
    concat (pool st) ≡ₚ input_sentences input /\
    (Z.of_nat (length input) <= SizeT.modulus ->
     concat (pool st)
     ≡ₚ imap (fun i line => new_Sentence (Z.of_nat i) line) input /\
     GetLineNum <$> concat (pool st) ≡ₚ Z.of_nat <$> seq 0 (length input)).
Proof.
  intros Hmini _ Hfuel.
  destruct (main_dispatches_everything fuel miniSize maxiSize input Hmini Hfuel)
    as (st & E & Hacc & Hperm).
  exists st. repeat (split; [done|]).
  intros Hlen. rewrite input_sentences_positions in Hperm by done.
  split; [done|].
  rewrite Hperm. by rewrite <- (positions_line_numbers 0).
Qed.

Lemma every_sentence_dispatched_once_witness :
  0 < 2 /\ 0 < 4 /\ (length ["e e e e e"; "a"; "c c c"; "b b"] < 5)%nat /\
  exists st,
    main 5 2 4 ["e e e e e"; "a"; "c c c"; "b b"] = Finished st /\
    maxiBatch st = [] /\
    concat (pool st) ≡ₚ input_sentences ["e e e e e"; "a"; "c c c"; "b b"] /\
    (Z.of_nat (length ["e e e e e"; "a"; "c c c"; "b b"]) <= SizeT.modulus ->
     concat (pool st)
     ≡ₚ imap (fun i line => new_Sentence (Z.of_nat i) line)
             ["e e e e e"; "a"; "c c c"; "b b"] /\
     GetLineNum <$> concat (pool st)
     ≡ₚ Z.of_nat <$> seq 0 (length ["e e e e e"; "a"; "c c c"; "b b"])).
Proof.
  assert (Hmini : 0 < 2) by lia.
  assert (Hmaxi : 0 < 4) by lia.
  assert (Hfuel : (length ["e e e e e"; "a"; "c c c"; "b b"] < 5)%nat)
    by (simpl; lia).
  repeat (split; [assumption|]).
  exact (every_sentence_dispatched_once
           5 2 4 ["e e e e e"; "a"; "c c c"; "b b"] Hmini Hmaxi Hfuel).
Defined.

(** The worked scenario of the design document: [maxiSize = 4],
    [miniSize = 2], sentences of lengths 5, 1, 3, 2 in that order. *)
Example scenario_four_sentences :
  exists st,
    main 5 2 4 ["e e e e e"; "a"; "c c c"; "b b"] = Finished st /\
    map (map GetLength) (pool st) = [[1; 2]; [3; 5]] /\
    map (map GetLineNum) (pool st) = [[1; 3]; [2; 0]].
Proof. eexists. split; [vm_compute; reflexivity|]. split; reflexivity. Qed.

(** *** Five sentences, [maxiSize = 5], [miniSize = 2] *)

Lemma read_loop_below fuel miniSize maxiSize line input st :
  Sentences.size (maxiBatch (submit line st)) < maxiSize ->
  read_loop fuel miniSize maxiSize (line :: input) st
  = read_loop fuel miniSize maxiSize input (submit line st).
Proof.
  intros Hlt. rewrite read_loop_cons.
  destruct (Z.leb_spec maxiSize (Sentences.size (maxiBatch (submit line st))));
    [lia | reflexivity].
Qed.

(** C7, as the code has it.  With [maxiSize = 5] and [miniSize = 2], five
    sentences followed by the end of the input: the fifth sentence fills
    the accumulator, so the full maxi-batch cycle runs inside the reading
    loop, and it is there that the five sentences are sorted and handed
    over as mini-batches of sizes 2, 2, 1: the mini-batches, one after
    the other, are the five sentences in the order [SortByLength] puts
    them in.  The accumulator is empty when the input ends, and the
    last-batch block adds nothing. *)
Theorem five_sentences_fill_the_maxi_batch fuel input :
  length input = 5%nat ->
  (5 < fuel)%nat ->
  exists st,
    read_loop fuel 2 5 input (State 0 [] []) = Finished st /\
    maxiBatch st = [] /\
    length <$> pool st = [2; 2; 1]%nat /\
    concat (pool st) = Sentences.SortByLength (input_sentences input) /\
    concat (pool st) ≡ₚ input_sentences input /\
    last_batch fuel 2 st = Finished st /\
    main fuel 2 5 input = Finished st.
Proof.
  intros Hlen Hfuel.
  destruct input as [|l0 [|l1 [|l2 [|l3 [|l4 [|]]]]]]; try discriminate.
  do 6 (destruct fuel as [|fuel]; [lia|]).
  set (batch := [new_Sentence 0 l0; new_Sentence 1 l1; new_Sentence 2 l2;
                 new_Sentence 3 l3; new_Sentence 4 l4]).
  pose proof (SortByLength_length batch) as Hsl.
  pose proof (SortByLength_Permutation batch) as Hsp.
  destruct (Sentences.SortByLength batch)
    as [|s0 [|s1 [|s2 [|s3 [|s4 [|]]]]]] eqn:Hsort; try discriminate.
  assert (E : read_loop (S (S (S (S (S (S fuel)))))) 2 5 [l0; l1; l2; l3; l4]
                        (State 0 [] [])
              = Finished (State 5 [] [[s0; s1]; [s2; s3]; [s4]])).
  { do 4 (rewrite read_loop_below by (vm_compute; reflexivity)).
    rewrite read_loop_cons.
    change (maxiBatch (submit l4 (submit l3 (submit l2 (submit l1
              (submit l0 (State 0 [] []))))))) with batch.
    change (5 <=? Sentences.size batch) with true. cbv iota.
    unfold sort_and_slice.
    change (maxiBatch (submit l4 (submit l3 (submit l2 (submit l1
              (submit l0 (State 0 [] []))))))) with batch.
    rewrite Hsort. reflexivity. }
  eexists. split; [exact E|].
  split; [reflexivity|]. split; [reflexivity|].
  split; [| split; [| split]].
  - change (input_sentences [l0; l1; l2; l3; l4]) with batch.
    rewrite Hsort. reflexivity.
  - simpl. rewrite Hsp. reflexivity.
  - reflexivity.
  - unfold main. rewrite E. reflexivity.
Qed.

Lemma five_sentences_fill_the_maxi_batch_witness :
  length ["e e e e e"; "a"; "c c c"; "b b"; "d d d d"] = 5%nat /\
  (5 < 6)%nat /\
  exists st,
    read_loop 6 2 5 ["e e e e e"; "a"; "c c c"; "b b"; "d d d d"]
              (State 0 [] []) = Finished st /\
    maxiBatch st = [] /\
    length <$> pool st = [2; 2; 1]%nat /\
    concat (pool st)
    = Sentences.SortByLength
        (input_sentences ["e e e e e"; "a"; "c c c"; "b b"; "d d d d"]) /\
    concat (pool st)
    ≡ₚ input_sentences ["e e e e e"; "a"; "c c c"; "b b"; "d d d d"] /\
    last_batch 6 2 st = Finished st /\
    main 6 2 5 ["e e e e e"; "a"; "c c c"; "b b"; "d d d d"] = Finished st.
Proof.
  assert (Hlen : length ["e e e e e"; "a"; "c c c"; "b b"; "d d d d"] = 5%nat)
    by reflexivity.
  assert (Hfuel : (5 < 6)%nat) by lia.
  repeat (split; [assumption|]).
  exact (five_sentences_fill_the_maxi_batch
           6 ["e e e e e"; "a"; "c c c"; "b b"; "d d d d"] Hlen Hfuel).
Defined.

(** C7 fails as stated: when the input ends the reading loop has already
    run the cycle, the pool holds the three mini-batches and the
    accumulator is empty, so nothing is left for the last-batch block. *)
Lemma fifth_sentence_triggers_the_cycle :
  exists st,
    read_loop 6 2 5 ["e e e e e"; "a"; "c c c"; "b b"; "d d d d"]
              (State 0 [] []) = Finished st /\
    GetLineNum <$> concat (pool st) = [1; 3; 2; 4; 0] /\
    length <$> pool st = [2; 2; 1]%nat /\
    ~ (pool st = [] /\ length (maxiBatch st) = 5%nat) /\
    last_batch 6 2 st = Finished st.
Proof.
  eexists. split; [vm_compute; reflexivity|].
  split; [reflexivity|]. split; [reflexivity|].
  split; [|reflexivity]. intros [Hq _]. discriminate.
Qed.

(** *** Batch sizes of zero *)

(** With [maxiSize = 0] every sentence fills the accumulator on its own. *)
Lemma read_loop_maxi_zero fuel miniSize input st :
  0 < miniSize ->
  (length input < fuel)%nat ->
  maxiBatch st = [] ->
  exists n,
    read_loop fuel miniSize 0 input st
    = Finished (State n []
                 (pool st ++
                  ((fun s => [s]) <$> sentences_from (lineNum st) input))).
Proof.
  intros Hmini. revert st.
  induction input as [|line input IH]; intros [ln b q] Hfuel Hb;
    simpl in Hb; subst b.
  { exists ln. simpl. by rewrite app_nil_r. }
  simpl in Hfuel.
  destruct fuel as [|[|fuel]]; [lia | lia |].
  rewrite read_loop_cons.
  change (0 <=? Sentences.size (maxiBatch (submit line (State ln [] q))))
    with true. cbv iota.
  assert (E : sort_and_slice (S (S fuel)) miniSize (submit line (State ln [] q))
              = Finished (State (SizeT.succ ln) []
                                (q ++ [[new_Sentence ln line]]))).
  { unfold sort_and_slice, submit. simpl.
    unfold Sentences.NextMiniBatch.
    destruct (Z.to_nat miniSize) as [|k] eqn:Hk; [lia|]. simpl.
    rewrite take_nil, drop_nil. reflexivity. }
  rewrite E. cbn [lineNum pool].
  destruct (IH (State (SizeT.succ ln) [] (q ++ [[new_Sentence ln line]])))
    as [n En]; [lia | done |].
  exists n. rewrite En. simpl. by rewrite <- app_assoc.
Qed.

(** With [miniSize = 0] the slicing loop takes nothing from a non-empty
    accumulator, round after round. *)
Lemma slice_mini_zero fuel st :
  maxiBatch st <> [] ->
  slice fuel 0 st
  = OutOfFuel (State (lineNum st) (maxiBatch st)
                     (pool st ++ replicate fuel [])).
Proof.
  revert st. induction fuel as [|fuel IH]; intros [ln b q] Hb; simpl in *.
  { by rewrite app_nil_r. }
  destruct (Z.eqb_spec (Sentences.size b) 0) as [Hz|_].
  { by apply size_zero in Hz. }
  rewrite drop_0, IH by done. simpl.
  unfold enqueue. by rewrite <- app_assoc.
Qed.

Lemma sort_and_slice_mini_zero fuel st :
  maxiBatch st <> [] ->
  exists st',
    sort_and_slice fuel 0 st = OutOfFuel st' /\
    pool st' = pool st ++ replicate fuel [] /\
    maxiBatch st' <> [].
Proof.
  intros Hb. unfold sort_and_slice.
  assert (Hs : Sentences.SortByLength (maxiBatch st) <> []).
  { intros Hnil. apply Hb, length_zero_iff_nil.
    by rewrite <- SortByLength_length, Hnil. }
  rewrite slice_mini_zero by done. eexists. split; [done|]. done.
Qed.

Lemma read_loop_mini_zero fuel maxiSize input st :
  pool st = [] ->
  (exists st',
      read_loop fuel 0 maxiSize input st = Finished st' /\
      pool st' = [] /\
      maxiBatch st' = maxiBatch st ++ sentences_from (lineNum st) input)
  \/
  (exists st',
      read_loop fuel 0 maxiSize input st = OutOfFuel st' /\
      pool st' = replicate fuel [] /\
      maxiBatch st' <> []).
Proof.
  revert st. induction input as [|line input IH]; intros st Hq.
  { left. exists st. simpl. by rewrite app_nil_r. }
  rewrite read_loop_cons.
  destruct (maxiSize <=? Sentences.size (maxiBatch (submit line st))).
  - right.
    destruct (sort_and_slice_mini_zero fuel (submit line st))
      as (st' & E & Hq' & Hb').
    { simpl. unfold Sentences.push_back. by destruct (maxiBatch st). }
    rewrite E. exists st'. simpl in Hq'. rewrite Hq in Hq'. done.
  - destruct (IH (submit line st) Hq)
      as [(st' & E & Hq' & Hb') | (st' & E & Hq' & Hb')].
    + left. exists st'. split; [done|]. split; [done|].
      rewrite Hb'. simpl. unfold Sentences.push_back.
      by rewrite <- app_assoc.
    + right. by exists st'.
Qed.

(** The loops of [main] have no test of their own on the two sizes: what
    they do with a size of 0 is what they do with any number.  With
    [maxiSize = 0] (and [miniSize > 0]) they run to their end, every line
    being put into the accumulator and handed to the pool at once, as a
    mini-batch of that one sentence.  With [miniSize = 0] and an input
    that is not empty, the first slicing loop never ends: every round
    enqueues one more empty mini-batch and leaves the accumulator as it
    is.  Keeping 0 away from the loops is left to start-up. *)
Lemma loops_do_not_test_the_sizes fuel input :
  (forall miniSize,
      0 < miniSize -> (length input < fuel)%nat ->
      exists st,
        main fuel miniSize 0 input = Finished st /\
        maxiBatch st = [] /\
        pool st = (fun s => [s]) <$> input_sentences input)
  /\
  (forall maxiSize,
      input <> [] ->
      exists st,
        main fuel 0 maxiSize input = OutOfFuel st /\
        pool st = replicate fuel [] /\
        maxiBatch st <> []).
Proof.
  split.
  - intros miniSize Hmini Hfuel. unfold main.
    destruct (read_loop_maxi_zero fuel miniSize input (State 0 [] [])
                                  Hmini Hfuel)
      as [n E]; [done|].
    rewrite E. simpl. rewrite sentences_from_0. eauto.
  - intros maxiSize Hin. unfold main.
    destruct (read_loop_mini_zero fuel maxiSize input (State 0 [] []))
      as [(st & E & Hq & Hb) | (st & E & Hq & Hb)]; [done | |].
    + rewrite E. unfold last_batch. simpl in Hb.
      assert (Hne : maxiBatch st <> []).
      { rewrite Hb. by destruct input. }
      destruct (Z.eqb_spec (Sentences.size (maxiBatch st)) 0) as [Hz|_].
      { by apply size_zero in Hz. }
      destruct (sort_and_slice_mini_zero fuel st Hne) as (st' & E' & Hq' & Hb').
      exists st'. rewrite Hq in Hq'. done.
    + rewrite E. by exists st.
Qed.

(** *** Start-up *)

Lemma God_Init_rejects (opts : options) key :
  key = "mini-batch" \/ key = "maxi-batch" ->
  opts !! key = None \/ opts !! key = Some 0 ->
  God_Init opts = None.
Proof.
  intros Hkey Hbad. unfold God_Init.
  assert (Hp : positive_size opts key = false).
  { unfold positive_size. by destruct Hbad as [-> | ->]. }
  destruct Hkey as [-> | ->]; rewrite Hp; [done|].
  by rewrite andb_false_r.
Qed.

Lemma God_Init_accepts (opts : options) miniSize maxiSize :
  opts !! "mini-batch" = Some miniSize ->
  opts !! "maxi-batch" = Some maxiSize ->
  0 < miniSize -> 0 < maxiSize ->
  God_Init opts = Some (MkGod opts).
Proof.
  intros Hmini Hmaxi Hm HM. unfold God_Init, positive_size.
  rewrite Hmini, Hmaxi.
  destruct (Z.ltb_spec 0 miniSize); [|lia].
  destruct (Z.ltb_spec 0 maxiSize); [|lia]. done.
Qed.

Lemma God_Init_accepted (opts : options) god :
  God_Init opts = Some god ->
  god = MkGod opts /\
  exists miniSize maxiSize,
    opts !! "mini-batch" = Some miniSize /\
    opts !! "maxi-batch" = Some maxiSize /\
    0 < miniSize /\ 0 < maxiSize.
Proof.
  unfold God_Init, positive_size. intros Hinit.
  destruct (opts !! "mini-batch") as [miniSize|] eqn:Hmini; [|done].
  destruct (opts !! "maxi-batch") as [maxiSize|] eqn:Hmaxi;
    [|by rewrite andb_false_r in Hinit].
  destruct (Z.ltb_spec 0 miniSize); [|done].
  destruct (Z.ltb_spec 0 maxiSize); [|done].
  simpl in Hinit. injection Hinit as <-. eauto 10.
Qed.

(** C9, with start-up as the design document describes it.  When the
    "mini-batch" or the "maxi-batch" setting is zero or missing,
    [god.Init], the first thing [main] does, ends the run in the
    configuration error: no scheduler state is come to, no sentence is put
    into the accumulator and nothing is handed to the pool.  The loops of
    [main] are entered with the two settings when both are there and
    positive, and only then. *)
Theorem configuration_errors_stop_before_batching
    fuel (opts : options) input :
  (forall key,
      key = "mini-batch" \/ key = "maxi-batch" ->
      opts !! key = None \/ opts !! key = Some 0 ->
      main_from_Init fuel opts input = ConfigurationError /\
      reached (main_from_Init fuel opts input) = None /\
      submitted (main_from_Init fuel opts input) = 0 /\
      enqueued (main_from_Init fuel opts input) = [])
  /\
  (forall miniSize maxiSize,
      opts !! "mini-batch" = Some miniSize ->
      opts !! "maxi-batch" = Some maxiSize ->
      0 < miniSize -> 0 < maxiSize ->
      main_from_Init fuel opts input
      = Returned (main fuel miniSize maxiSize input))
  /\
  (forall o,
      main_from_Init fuel opts input = Returned o ->
      exists miniSize maxiSize,
        opts !! "mini-batch" = Some miniSize /\
        opts !! "maxi-batch" = Some maxiSize /\
        0 < miniSize /\ 0 < maxiSize /\
        o = main fuel miniSize maxiSize input).
Proof.
  split; [|split].
  - intros key Hkey Hbad. unfold main_from_Init.
    by rewrite (God_Init_rejects opts key Hkey Hbad).
  - intros miniSize maxiSize Hmini Hmaxi Hm HM. unfold main_from_Init.
    rewrite (God_Init_accepts opts miniSize maxiSize) by done.
    unfold God_Get. simpl. by rewrite Hmini, Hmaxi.
  - intros o. unfold main_from_Init.
    destruct (God_Init opts) as [god|] eqn:Hinit; [|done].
    apply God_Init_accepted in Hinit
      as (-> & miniSize & maxiSize & Hmini & Hmaxi & Hm & HM).
    unfold God_Get. simpl. rewrite Hmini, Hmaxi. simpl.
    intros [= <-]. eauto 10.
Qed.

Lemma configuration_errors_stop_before_batching_witness :
  let zero : options := {["mini-batch" := 0; "maxi-batch" := 5]} in
  let missing : options := {["mini-batch" := 2]} in
  let good : options := {["mini-batch" := 2; "maxi-batch" := 5]} in
  let input := ["e e e e e"; "a"; "c c c"; "b b"; "d d d d"] in
  (zero !! "mini-batch" = Some 0 /\
   main_from_Init 6 zero input = ConfigurationError /\
   enqueued (main_from_Init 6 zero input) = []) /\
  (missing !! "maxi-batch" = None /\
   main_from_Init 6 missing input = ConfigurationError /\
   submitted (main_from_Init 6 missing input) = 0) /\
  (good !! "mini-batch" = Some 2 /\ good !! "maxi-batch" = Some 5 /\
   0 < 2 /\ 0 < 5 /\
   main_from_Init 6 good input = Returned (main 6 2 5 input)) /\
  (main_from_Init 6 good input = Returned (main 6 2 5 input) /\
   exists miniSize maxiSize,
     good !! "mini-batch" = Some miniSize /\
     good !! "maxi-batch" = Some maxiSize /\
     0 < miniSize /\ 0 < maxiSize /\
     main 6 2 5 input = main 6 miniSize maxiSize input).
Proof.
  intros zero missing good input.
  assert (Hz : zero !! "mini-batch" = Some 0) by (vm_compute; reflexivity).
  assert (Hm : missing !! "maxi-batch" = None) by (vm_compute; reflexivity).
  assert (Hg2 : good !! "mini-batch" = Some 2) by (vm_compute; reflexivity).
  assert (Hg5 : good !! "maxi-batch" = Some 5) by (vm_compute; reflexivity).
  assert (H2 : 0 < 2) by lia.
  assert (H5 : 0 < 5) by lia.
  assert (Hrun : main_from_Init 6 good input = Returned (main 6 2 5 input))
    by (vm_compute; reflexivity).
  split; [|split; [|split]].
  - split; [exact Hz|].
    destruct (proj1 (configuration_errors_stop_before_batching 6 zero input)
                    "mini-batch" (or_introl eq_refl) (or_intror Hz))
      as (E & _ & _ & Hq).
    split; [exact E | exact Hq].
  - split; [exact Hm|].
    destruct (proj1 (configuration_errors_stop_before_batching 6 missing input)
                    "maxi-batch" (or_intror eq_refl) (or_introl Hm))
      as (E & _ & Hs & _).
    split; [exact E | exact Hs].
  - do 4 (split; [assumption|]).
    exact (proj1 (proj2 (configuration_errors_stop_before_batching
                           6 good input))
                 2 5 Hg2 Hg5 H2 H5).
  - split; [exact Hrun|].
    exact (proj2 (proj2 (configuration_errors_stop_before_batching
                           6 good input))
                 (main 6 2 5 input) Hrun).
Defined.

(* ===================================================================== *)
(** ** The batching loop: further properties *)
(* ===================================================================== *)

(** *** The mini-batches *)

Lemma Sorted_drop {A} (R : relation A) n (l : list A) :
  Sorted R l -> Sorted R (drop n l).
Proof.
  revert l. induction n as [|n IH]; intros l Hl; [done|].
  destruct l as [|x l]; [done|]. simpl. apply IH. by inversion Hl.
Qed.

Lemma Sorted_take {A} (R : relation A) n (l : list A) :
  Sorted R l -> Sorted R (take n l).
Proof.
  revert l. induction n as [|n IH]; intros l Hl; [constructor|].
  destruct l as [|x l]; [constructor|]. simpl.
  inversion Hl as [|? ? Hs Hh]; subst. constructor; [by apply IH|].
  destruct n; [constructor|]. destruct Hh; constructor. done.
Qed.

Lemma tasks_for_0 miniSize : 0 < miniSize -> tasks_for miniSize 0 = 0.
Proof. intros Hm. unfold tasks_for. apply Z.div_small. lia. Qed.

Lemma tasks_for_small miniSize k :
  0 < k <= miniSize -> tasks_for miniSize k = 1.
Proof.
  intros Hk. unfold tasks_for.
  replace (k + miniSize - 1) with (k - 1 + 1 * miniSize) by lia.
  rewrite Z.div_add by lia. rewrite Z.div_small by lia. done.
Qed.

Lemma tasks_for_step miniSize k :
  0 < miniSize -> miniSize < k ->
  tasks_for miniSize k = 1 + tasks_for miniSize (k - miniSize).
Proof.
  intros Hm Hk. unfold tasks_for.
  replace (k + miniSize - 1) with (k - miniSize + miniSize - 1 + 1 * miniSize)
    by lia.
  rewrite Z.div_add by lia. lia.
Qed.

(** The slicing loop, with all it does: consecutive slices of the
    accumulator, none empty, none above [miniSize], sorted if the
    accumulator is, and as many as [tasks_for] says. *)
Lemma slice_chunks fuel miniSize st :
  0 < miniSize -> (length (maxiBatch st) < fuel)%nat ->
  exists chunks,
    slice fuel miniSize st
    = Finished (State (lineNum st) [] (pool st ++ chunks)) /\
    concat chunks = maxiBatch st /\
    Z.of_nat (length chunks)
    = tasks_for miniSize (Z.of_nat (length (maxiBatch st))) /\
    (Sorted Sentences.by_length (maxiBatch st) ->
     Forall (well_formed_batch miniSize) chunks).
Proof.
  intros Hmini. revert st.
  induction fuel as [|fuel IH]; intros [ln b q] Hfuel; simpl in *; [lia|].
  destruct (Z.eqb_spec (Sentences.size b) 0) as [Hz | Hnz].
  - apply size_zero in Hz as ->. exists []. rewrite app_nil_r. simpl.
    rewrite tasks_for_0 by done. done.
  - assert (Hb : b <> []) by (by rewrite <- size_zero).
    set (n := Z.to_nat miniSize).
    assert (Hn : (0 < n)%nat) by lia.
    assert (Hlen : (0 < length b)%nat) by (destruct b; [done | simpl; lia]).
    destruct (IH (State ln (drop n b) (enqueue q (take n b))))
      as (cs & E & Hc & Hcount & Hwf).
    { simpl. rewrite length_drop. lia. }
    exists (take n b :: cs). simpl in *.
    rewrite E. unfold enqueue. rewrite <- app_assoc. simpl.
    split; [done|]. split; [by rewrite Hc, take_drop|].
    split.
    + rewrite Nat2Z.inj_succ, Hcount, length_drop.
      destruct (decide (length b <= n)%nat) as [Hle | Hgt].
      * replace (length b - n)%nat with 0%nat by lia.
        rewrite tasks_for_0, tasks_for_small by lia. done.
      * rewrite (tasks_for_step miniSize (Z.of_nat (length b))) by lia.
        rewrite Nat2Z.inj_sub by lia. unfold n. rewrite Z2Nat.id by lia. lia.
    + intros Hs. constructor; [|by apply Hwf, Sorted_drop].
      split; [|split].
      * destruct b; [done|]. destruct n; [lia|]. done.
      * rewrite length_take. lia.
      * by apply Sorted_take.
Qed.

Lemma sort_and_slice_chunks fuel miniSize st :
  0 < miniSize -> (length (maxiBatch st) < fuel)%nat ->
  exists chunks,
    sort_and_slice fuel miniSize st
    = Finished (State (lineNum st) [] (pool st ++ chunks)) /\
    concat chunks = Sentences.SortByLength (maxiBatch st) /\
    Z.of_nat (length chunks)
    = tasks_for miniSize (Z.of_nat (length (maxiBatch st))) /\
    Forall (well_formed_batch miniSize) chunks.
Proof.
  intros Hmini Hfuel. unfold sort_and_slice.
  destruct (slice_chunks fuel miniSize
              (State (lineNum st) (Sentences.SortByLength (maxiBatch st))
                     (pool st)) Hmini) as (cs & E & Hc & Hn & Hwf).
  { simpl. by rewrite SortByLength_length. }
  exists cs. simpl in *. rewrite SortByLength_length in Hn.
  repeat (split; [done|]). apply Hwf, SortByLength_Sorted.
Qed.

Lemma read_loop_batches fuel miniSize maxiSize input st :
  0 < miniSize ->
  (length (maxiBatch st) + length input < fuel)%nat ->
  Forall (well_formed_batch miniSize) (pool st) ->
  exists st',
    read_loop fuel miniSize maxiSize input st = Finished st' /\
    (length (maxiBatch st') <= length (maxiBatch st) + length input)%nat /\
    Forall (well_formed_batch miniSize) (pool st').
Proof.
  intros Hmini. revert st.
  induction input as [|line input IH]; intros st Hfuel Hq.
  { exists st. simpl. split; [done|]. split; [lia | done]. }
  rewrite read_loop_cons.
  set (st1 := submit line st).
  assert (Hlen1 : length (maxiBatch st1) = S (length (maxiBatch st))).
  { simpl. unfold Sentences.push_back. rewrite length_app. simpl. lia. }
  simpl in Hfuel.
  destruct (maxiSize <=? Sentences.size (maxiBatch st1)).
  - destruct (sort_and_slice_chunks fuel miniSize st1 Hmini)
      as (cs & E & _ & _ & Hwf); [lia|].
    rewrite E.
    destruct (IH (State (lineNum st1) [] (pool st1 ++ cs)))
      as (st' & E' & Hlen' & Hq'); [simpl; lia | |].
    { simpl. apply Forall_app. done. }
    exists st'. split; [exact E'|]. split; [simpl in Hlen' |- *; lia | done].
  - destruct (IH st1) as (st' & E' & Hlen' & Hq'); [lia | done |].
    exists st'. split; [exact E'|]. split; [simpl; lia | done].
Qed.

(** X14.  With a positive mini-batch size, every mini-batch [main] hands
    to the pool is non-empty, holds at most [miniSize] sentences, and has
    its sentences in ascending order of length: [main] never enqueues an
    empty task and never one above the configured size, whatever
    [maxiSize] is. *)
Theorem main_enqueues_well_formed_batches fuel miniSize maxiSize input :
  0 < miniSize ->
  (length input < fuel)%nat ->
  exists st,
    main fuel miniSize maxiSize input = Finished st /\
    Forall (fun c => c <> [] /\ Z.of_nat (length c) <= miniSize /\
                     Sorted Sentences.by_length c) (pool st).
Proof.
  intros Hmini Hfuel. unfold main.
  destruct (read_loop_batches fuel miniSize maxiSize input (State 0 [] [])
                              Hmini)
    as (st1 & E1 & Hlen1 & Hq1); [simpl; lia | constructor |].
  rewrite E1. simpl in Hlen1. unfold last_batch.
  destruct (Sentences.size (maxiBatch st1) =? 0); [by exists st1|].
  destruct (sort_and_slice_chunks fuel miniSize st1 Hmini)
    as (cs & E & _ & _ & Hwf); [lia|].
  eexists. split; [exact E|]. simpl. apply Forall_app. done.
Qed.

(** *** How much is buffered, how many tasks are made *)

(** The reading loop from an accumulator below [maxiSize]: it enqueues
    the mini-batches of one full maxi-batch every [maxiSize] lines, and
    keeps in the accumulator, in arrival order, the sentences read since
    the last full one. *)
Lemma read_loop_cycles fuel miniSize maxiSize input st :
  0 < miniSize -> 0 < maxiSize ->
  Z.of_nat (length (maxiBatch st)) < maxiSize ->
  (length (maxiBatch st) + length input < fuel)%nat ->
  let all := maxiBatch st ++ sentences_from (lineNum st) input in
  let total := Z.of_nat (length all) in
  exists st',
    read_loop fuel miniSize maxiSize input st = Finished st' /\
    maxiBatch st' = drop (Z.to_nat (total - total mod maxiSize)) all /\
    Z.of_nat (length (pool st'))
    = Z.of_nat (length (pool st))
      + total / maxiSize * tasks_for miniSize maxiSize.
Proof.
  intros Hmini Hmaxi. revert st.
  induction input as [|line input IH]; intros st Ha Hfuel; cbv zeta.
  { exists st. simpl. rewrite app_nil_r.
    rewrite Z.mod_small, Z.div_small by lia.
    rewrite Z.sub_diag. simpl. split; [done|]. split; [done | lia]. }
  rewrite read_loop_cons.
  set (st1 := submit line st).
  assert (Hmb1 : maxiBatch st1
                 = maxiBatch st ++ [new_Sentence (lineNum st) line]) by done.
  assert (Hlen1 : length (maxiBatch st1) = S (length (maxiBatch st))).
  { rewrite Hmb1, length_app. simpl. lia. }
  assert (Hall : maxiBatch st ++ sentences_from (lineNum st) (line :: input)
                 = maxiBatch st1 ++ sentences_from (lineNum st1) input).
  { rewrite Hmb1. simpl. by rewrite <- app_assoc. }
  rewrite Hall. simpl in Hfuel.
  destruct (Z.leb_spec maxiSize (Sentences.size (maxiBatch st1)))
    as [Hfull | Hless].
  - (* the accumulator holds exactly [maxiSize] sentences *)
    unfold Sentences.size in Hfull.
    assert (Hexact : Z.of_nat (length (maxiBatch st1)) = maxiSize) by lia.
    destruct (sort_and_slice_chunks fuel miniSize st1 Hmini)
      as (cs & E & _ & Hcount & _); [lia|].
    rewrite E. cbn [lineNum pool].
    destruct (IH (State (lineNum st1) [] (pool st1 ++ cs)))
      as (st' & E' & Hacc & Hpool); [simpl; lia | simpl; lia |].
    simpl in Hacc, Hpool.
    exists st'. split; [exact E'|].
    set (r := Z.of_nat (length (sentences_from (lineNum st1) input))) in *.
    assert (Htot : Z.of_nat (length (maxiBatch st1
                                     ++ sentences_from (lineNum st1) input))
                   = r + 1 * maxiSize).
    { rewrite length_app, Nat2Z.inj_add. fold r. lia. }
    rewrite Htot, Z.mod_add, Z.div_add by lia.
    pose proof (Z.mod_pos_bound r maxiSize Hmaxi) as Hmod.
    assert (Hr : 0 <= r) by (unfold r; lia).
    pose proof (Z.mod_le r maxiSize Hr Hmaxi) as Hmodle.
    split.
    + rewrite Hacc.
      replace (Z.to_nat (r + 1 * maxiSize - r mod maxiSize))
        with (length (maxiBatch st1) + Z.to_nat (r - r mod maxiSize))%nat
        by lia.
      by rewrite drop_app_add.
    + rewrite Hpool, length_app, Nat2Z.inj_add, Hcount, Hexact.
      change (pool st1) with (pool st). subst r. simpl. ring.
  - unfold Sentences.size in Hless.
    destruct (IH st1) as (st' & E' & Hacc & Hpool); [lia | lia |].
    exists st'. split; [exact E'|]. split; [exact Hacc|].
    rewrite Hpool. done.
Qed.

Lemma length_sentences_from n input :
  length (sentences_from n input) = length input.
Proof.
  revert n. induction input as [|line input IH]; intros n; simpl; [done|].
  by rewrite IH.
Qed.

Lemma length_input_sentences input :
  length (input_sentences input) = length input.
Proof. unfold input_sentences. apply length_imap. Qed.

(** X15.  Buffering is bounded by the maxi-batch size.  When the input
    ends after N lines, the accumulator holds fewer than [maxiSize]
    sentences: exactly the last [N mod maxiSize] sentences read, in
    arrival order; all the sentences before them (whole maxi-batches)
    have been handed to the pool by the reading loop. *)
Theorem reading_loop_buffers_less_than_maxi fuel miniSize maxiSize input :
  0 < miniSize -> 0 < maxiSize ->
  (length input < fuel)%nat ->
  let N := Z.of_nat (length input) in
  let done_ := Z.to_nat (N - N mod maxiSize) in
  exists st,
    read_loop fuel miniSize maxiSize input (State 0 [] []) = Finished st /\
    maxiBatch st = drop done_ (input_sentences input) /\
    Z.of_nat (length (maxiBatch st)) = N mod maxiSize /\
    Z.of_nat (length (maxiBatch st)) < maxiSize /\
    concat (pool st) ≡ₚ take done_ (input_sentences input).
Proof.
  intros Hmini Hmaxi Hfuel N done_.
  destruct (read_loop_cycles fuel miniSize maxiSize input (State 0 [] [])
              Hmini Hmaxi) as (st & E & Hacc & _); [simpl; lia | simpl; lia |].
  destruct (read_loop_finishes fuel miniSize maxiSize input (State 0 [] [])
              Hmini) as (st2 & E2 & _ & Hperm); [simpl; lia|].
  rewrite E in E2. injection E2 as <-.
  simpl in Hacc, Hperm. rewrite sentences_from_0 in Hacc, Hperm.
  rewrite length_input_sentences in Hacc. fold N done_ in Hacc.
  pose proof (Z.mod_pos_bound N maxiSize Hmaxi) as Hmod.
  assert (HN : 0 <= N) by (unfold N; lia).
  pose proof (Z.mod_le N maxiSize HN Hmaxi) as Hmodle.
  assert (Hl : Z.of_nat (length (maxiBatch st)) = N mod maxiSize).
  { rewrite Hacc, length_drop, length_input_sentences. unfold done_. lia. }
  exists st. split; [exact E|]. split; [exact Hacc|].
  split; [exact Hl|]. split; [lia|].
  rewrite <- (take_drop done_ (input_sentences input)) in Hperm at 1.
  rewrite <- Hacc in Hperm.
  by apply Permutation_app_inv_r in Hperm.
Qed.

(** X16.  The number of tasks.  For N lines and positive sizes, [main]
    enqueues [ceil(maxiSize / miniSize)] mini-batches for each of the
    [N / maxiSize] full maxi-batches, and [ceil((N mod maxiSize) /
    miniSize)] for the last batch. *)
Theorem main_task_count fuel miniSize maxiSize input :
  0 < miniSize -> 0 < maxiSize ->
  (length input < fuel)%nat ->
  let N := Z.of_nat (length input) in
  exists st,
    main fuel miniSize maxiSize input = Finished st /\
    Z.of_nat (length (pool st))
    = N / maxiSize * tasks_for miniSize maxiSize
      + tasks_for miniSize (N mod maxiSize).
Proof.
  intros Hmini Hmaxi Hfuel N. unfold main.
  destruct (read_loop_cycles fuel miniSize maxiSize input (State 0 [] [])
              Hmini Hmaxi) as (st & E & Hacc & Hpool);
    [simpl; lia | simpl; lia |].
  rewrite E. simpl in Hacc, Hpool.
  rewrite length_sentences_from in Hacc, Hpool. fold N in Hacc, Hpool.
  pose proof (Z.mod_pos_bound N maxiSize Hmaxi) as Hmod.
  assert (HN : 0 <= N) by (unfold N; lia).
  pose proof (Z.mod_le N maxiSize HN Hmaxi) as Hmodle.
  assert (Hl : Z.of_nat (length (maxiBatch st)) = N mod maxiSize).
  { rewrite Hacc, length_drop, length_sentences_from. fold N. lia. }
  unfold last_batch.
  destruct (Z.eqb_spec (Sentences.size (maxiBatch st)) 0) as [Hz | Hnz].
  - exists st. split; [done|]. unfold Sentences.size in Hz.
    rewrite Hpool, <- Hl, Hz, tasks_for_0 by done. lia.
  - destruct (sort_and_slice_chunks fuel miniSize st Hmini)
      as (cs & Es & _ & Hcount & _).
    { unfold N in *. lia. }
    eexists. split; [exact Es|]. simpl.
    rewrite length_app, Nat2Z.inj_add, Hpool, Hcount, Hl. done.
Qed.

(** X17.  An input shorter than the maxi-batch size goes through the
    last-batch block alone: the reading loop enqueues nothing, and [main]
    then hands the whole input over in one global order, the
    concatenation of the mini-batches being the input sorted by length
    (sentences of one length in arrival order). *)
Theorem short_input_is_sorted_as_a_whole fuel miniSize maxiSize input :
  0 < miniSize ->
  Z.of_nat (length input) < maxiSize ->
  (length input < fuel)%nat ->
  exists st1 st,
    read_loop fuel miniSize maxiSize input (State 0 [] []) = Finished st1 /\
    pool st1 = [] /\
    maxiBatch st1 = input_sentences input /\
    main fuel miniSize maxiSize input = Finished st /\
    concat (pool st) = Sentences.SortByLength (input_sentences input) /\
    Z.of_nat (length (pool st))
    = tasks_for miniSize (Z.of_nat (length input)).
Proof.
  intros Hmini Hshort Hfuel.
  assert (Hmaxi : 0 < maxiSize) by lia.
  destruct (read_loop_cycles fuel miniSize maxiSize input (State 0 [] [])
              Hmini Hmaxi) as (st1 & E & Hacc & Hpool);
    [simpl; lia | simpl; lia |].
  simpl in Hacc, Hpool. rewrite sentences_from_0 in Hacc, Hpool.
  rewrite length_input_sentences in Hacc, Hpool.
  rewrite Z.mod_small in Hacc by lia. rewrite Z.div_small in Hpool by lia.
  rewrite Z.sub_diag in Hacc. change (Z.to_nat 0) with 0%nat in Hacc.
  rewrite drop_0 in Hacc.
  assert (Hq : pool st1 = []) by (apply length_zero_iff_nil; lia).
  exists st1. unfold main. rewrite E. unfold last_batch.
  destruct (Z.eqb_spec (Sentences.size (maxiBatch st1)) 0) as [Hz | Hnz].
  - exists st1. apply size_zero in Hz.
    assert (Hin : input = []).
    { apply length_zero_iff_nil.
      rewrite <- length_input_sentences, <- Hacc, Hz. done. }
    subst input. simpl. rewrite Hq, tasks_for_0 by done. done.
  - destruct (sort_and_slice_chunks fuel miniSize st1 Hmini)
      as (cs & Es & Hc & Hcount & _).
    { rewrite Hacc, length_input_sentences. lia. }
    eexists. repeat (split; [done|]). simpl. rewrite Hq. simpl.
    rewrite Hc, Hcount, Hacc, length_input_sentences. done.
Qed.

(** *** The further properties on a five-line input *)

Lemma main_enqueues_well_formed_batches_witness :
  0 < 2 /\
  (length ["e e e e e"; "a"; "c c c"; "b b"; "d d d d"] < 6)%nat /\
  exists st,
    main 6 2 3 ["e e e e e"; "a"; "c c c"; "b b"; "d d d d"] = Finished st /\
    Forall (fun c => c <> [] /\ Z.of_nat (length c) <= 2 /\
                     Sorted Sentences.by_length c) (pool st).
Proof.
  assert (Hmini : 0 < 2) by lia.
  assert (Hfuel :
    (length ["e e e e e"; "a"; "c c c"; "b b"; "d d d d"] < 6)%nat)
    by (simpl; lia).
  split; [exact Hmini|]. split; [exact Hfuel|].
  exact (main_enqueues_well_formed_batches
           6 2 3 ["e e e e e"; "a"; "c c c"; "b b"; "d d d d"] Hmini Hfuel).
Defined.

Lemma reading_loop_buffers_less_than_maxi_witness :
  let input := ["e e e e e"; "a"; "c c c"; "b b"; "d d d d"] in
  0 < 2 /\ 0 < 3 /\ (length input < 6)%nat /\
  exists st,
    read_loop 6 2 3 input (State 0 [] []) = Finished st /\
    maxiBatch st = drop 3 (input_sentences input) /\
    Z.of_nat (length (maxiBatch st)) = 5 mod 3 /\
    Z.of_nat (length (maxiBatch st)) < 3 /\
    concat (pool st) ≡ₚ take 3 (input_sentences input).
Proof.
  intros input.
  assert (Hmini : 0 < 2) by lia.
  assert (Hmaxi : 0 < 3) by lia.
  assert (Hfuel : (length input < 6)%nat) by (simpl; lia).
  split; [exact Hmini|]. split; [exact Hmaxi|]. split; [exact Hfuel|].
  exact (reading_loop_buffers_less_than_maxi 6 2 3 input Hmini Hmaxi Hfuel).
Defined.

Lemma main_task_count_witness :
  let input := ["e e e e e"; "a"; "c c c"; "b b"; "d d d d"] in
  0 < 2 /\ 0 < 3 /\ (length input < 6)%nat /\
  exists st,
    main 6 2 3 input = Finished st /\
    Z.of_nat (length (pool st))
    = 5 / 3 * tasks_for 2 3 + tasks_for 2 (5 mod 3).
Proof.
  intros input.
  assert (Hmini : 0 < 2) by lia.
  assert (Hmaxi : 0 < 3) by lia.
  assert (Hfuel : (length input < 6)%nat) by (simpl; lia).
  split; [exact Hmini|]. split; [exact Hmaxi|]. split; [exact Hfuel|].
  exact (main_task_count 6 2 3 input Hmini Hmaxi Hfuel).
Defined.

Lemma short_input_is_sorted_as_a_whole_witness :
  let input := ["e e e e e"; "a"; "c c c"; "b b"; "d d d d"] in
  0 < 2 /\ Z.of_nat (length input) < 8 /\ (length input < 6)%nat /\
  exists st1 st,
    read_loop 6 2 8 input (State 0 [] []) = Finished st1 /\
    pool st1 = [] /\
    maxiBatch st1 = input_sentences input /\
    main 6 2 8 input = Finished st /\
    concat (pool st) = Sentences.SortByLength (input_sentences input) /\
    Z.of_nat (length (pool st)) = tasks_for 2 (Z.of_nat (length input)).
Proof.
  intros input.
  assert (Hmini : 0 < 2) by lia.
  assert (Hshort : Z.of_nat (length input) < 8) by (simpl; lia).
  assert (Hfuel : (length input < 6)%nat) by (simpl; lia).
  split; [exact Hmini|]. split; [exact Hshort|]. split; [exact Hfuel|].
  exact (short_input_is_sorted_as_a_whole 6 2 8 input Hmini Hshort Hfuel).
Defined.

End SchedulerFacts.
